(** * A shallow embedding of [tlo/lm.py]: [Predictor] and [LinearModel]

  The Python module builds row predicates as text and hands them to
  [pandas.DataFrame.eval].  The embedding follows that structure:

  - [Py]        exceptions as an error monad;
  - [Text]      the string operations used;
  - [Pandas]    the part of the data frame library that the module relies
                on: a table of cells, a lexer, a parser and a vectorised
                evaluator for the fragment of the expression language that
                the conditions are written in;
  - [Lm]        the classes [Predictor] and [LinearModel], function by
                function, and the vocabulary of the statements;
  - [Examples]  tables and predictors used as concrete inputs;
  - [Usage]     chains of calls, the state of the loop of [predict] and
                the vocabulary of the statements about them.

  The modules after these state and prove properties of [Lm]:
  [ParserTotality], [Elementwise], [PredictorConstruction],
  [LinearModelChecks], [ConditionTexts], [RowPartition], [ShortCircuit]
  and [Scenarios]; then [ConstructionChains], [PredictInvariants],
  [RulePriority], [ModelComposition], [PredictorOrder],
  [LiteralConditions], [LiteralSemantics] and [LiteralChains].

  Conventions.  Coefficients, the intercept and the outputs are floats in
  Python; here they are rationals ([Q]) and a missing entry ([NaN] in an
  output column) is [None]; sums and products are exact, without the
  rounding of floats.  The calls to [print] are tracing only and are left
  out. *)

From Stdlib Require Import String Ascii List ZArith QArith Bool Arith Lia.
From Stdlib Require Import DecimalString.
Import ListNotations.

(* ================================================================== *)
(** * Python exceptions *)
(* ================================================================== *)

Module Py.

(** What went wrong inside [DataFrame.eval]. *)
Inductive eval_error : Type :=
| UnexpectedEOF                  (* SyntaxError: the text ends inside an expression *)
| UnexpectedToken                (* SyntaxError, or a construct outside the fragment *)
| UnknownCharacter (c : ascii)   (* a character the lexer does not know *)
| UnterminatedString             (* SyntaxError: a string literal is not closed *)
| UndefinedVariable (name : string)
| OperandType                    (* TypeError raised by an operator *)
| NotAMask                       (* the value cannot index the output column *)
| ParserFuel.                    (* never produced, see [Pandas.parse_fuel] *)

Inductive error : Type :=
| AssertionError (msg : string)
| RuntimeError (msg : string)
| IndexError (msg : string)
| TypeError (msg : string)
| EvalError (e : eval_error).

Inductive result (A : Type) : Type :=
| Ok (a : A)
| Err (e : error).

Arguments Ok {A} a.
Arguments Err {A} e.

Definition bind {A B : Type} (m : result A) (k : A -> result B) : result B :=
  match m with
  | Ok a => k a
  | Err e => Err e
  end.

Definition is_ok {A : Type} (m : result A) : bool :=
  match m with Ok _ => true | Err _ => false end.

End Py.

Import Py.

Declare Scope py_scope.
Delimit Scope py_scope with py.
Notation "x <- m ;; k" := (bind m (fun x => k))
(at level 61, m at next level, right associativity) : py_scope.
Notation "' pat <- m ;; k" := (bind m (fun x => match x with pat => k end))
(at level 61, pat pattern, m at next level, right associativity) : py_scope.
Open Scope py_scope.

(* ================================================================== *)
(** * Text helpers *)
(* ================================================================== *)

Module Text.

Open Scope string_scope.
Open Scope char_scope.

(** The double quote character, used to build quoted literals. *)
Definition dquote_char : ascii := "034".
Definition squote_char : ascii := "039".
Definition dquote : string := String dquote_char EmptyString.

Definition is_digit (c : ascii) : bool :=
  (48 <=? nat_of_ascii c)%nat && (nat_of_ascii c <=? 57)%nat.

Definition is_alpha (c : ascii) : bool :=
  let n := nat_of_ascii c in
  ((65 <=? n)%nat && (n <=? 90)%nat)
  || ((97 <=? n)%nat && (n <=? 122)%nat)
  || (n =? 95)%nat.

Definition is_space (c : ascii) : bool :=
  let n := nat_of_ascii c in (n =? 32)%nat || (n =? 9)%nat.

Fixpoint all_chars (p : ascii -> bool) (s : string) : bool :=
  match s with
  | EmptyString => true
  | String c s' => p c && all_chars p s'
  end.

(** [str.isnumeric]: non-empty and every character numeric.  Strings are
    byte strings here, so the numeric characters are the ASCII digits. *)
Definition isnumeric (s : string) : bool :=
  match s with
  | EmptyString => false
  | String _ _ => all_chars is_digit s
  end.

(** [str(n)] for an integer. *)
Definition str_of_Z (z : Z) : string := NilZero.string_of_int (Z.to_int z).

Definition digit_value (c : ascii) : Z := Z.of_nat (nat_of_ascii c - 48).

End Text.

(* ================================================================== *)
(** * The data frame and [DataFrame.eval] *)
(* ================================================================== *)

(** [lm.py] uses four things of pandas: the columns and the index of a
    frame, [Series] of a constant, boolean indexing and [DataFrame.eval].
    The expression language is modelled on the fragment below, with the
    precedence of the pandas parser, which reads [&] as [and] and [|] as
    [or]:
<<
      or    ::= and  { ("|" | "or")  and }
      and   ::= not  { ("&" | "and") not }
      not   ::= "not" not | cmp
      cmp   ::= unary [ ("==" | "!=" | "<" | "<=" | ">" | ">=") unary ]
      unary ::= "~" unary | post
      post  ::= atom { "." ("max" | "min") "(" ")" }
      atom  ::= column | integer | string | True | False | @local | "(" or ")"
>>
    Evaluation is vectorised as in pandas: an expression denotes a scalar
    or a whole column.  A name denotes a column of the frame, [@touched]
    the local variable of [Predictor.predict].  Columns hold strings,
    integers, booleans or nothing; [&], [|] and [~] are defined on
    booleans.  Text outside the fragment is reported as an error.

    Where pandas and Python go beyond this, the model does not follow
    them: a name is always read as a column, also the few names that
    [eval] resolves itself ([Lm.pandas_names]); a number may be written
    with zeros in front, which Python refuses; [&] and [|] do not cast
    numbers to booleans; [max] and [min] are taken of integers only.
    The statements about the values that [predict] returns for given
    names and literals and about cutting a table by rows exclude these
    cases in their hypotheses. *)

Module Pandas.

Import Text.
Open Scope string_scope.

(** ** Tables *)

Inductive cell : Type :=
| CStr (s : string)
| CInt (z : Z)
| CBool (b : bool)
| CNaN.

(** A frame: the column labels and the rows, in index order.  A row shorter
    than the column list is missing its last entries. *)
Record DataFrame : Type := mkDataFrame {
  columns : list string;
  rows : list (list cell)
}.

Definition nrows (df : DataFrame) : nat := length (rows df).

(** [name in df.columns] *)
Definition has_column (df : DataFrame) (name : string) : bool :=
  existsb (String.eqb name) (columns df).

Fixpoint index_of (name : string) (cols : list string) : option nat :=
  match cols with
  | [] => None
  | c :: cols' =>
      if String.eqb name c then Some 0%nat
      else option_map S (index_of name cols')
  end.

Definition column_values (j : nat) (rs : list (list cell)) : list cell :=
  map (fun r => nth j r CNaN) rs.

(** [df[name]] *)
Definition column (df : DataFrame) (name : string) : option (list cell) :=
  option_map (fun j => column_values j (rows df)) (index_of name (columns df)).

(** ** Tokens *)

Inductive cmp_op : Type := OpEq | OpNe | OpLt | OpLe | OpGt | OpGe.

Inductive token : Type :=
| TName (s : string)
| TInt (z : Z)
| TStr (s : string)
| TBool (b : bool)
| TLocal (s : string)      (* @name *)
| TCmp (op : cmp_op)
| TAnd                     (* & and the keyword and *)
| TOr                      (* | and the keyword or *)
| TNot                     (* the keyword not *)
| TInvert                  (* ~ *)
| TLParen
| TRParen
| TDot.

Inductive lex_mode : Type :=
| Idle
| InName (is_local : bool) (acc : string)
| InInt (acc : Z)
| InStr (quote : ascii) (acc : string)
| InOp (c : ascii).        (* one of = ! < > was read *)

Definition snoc (s : string) (c : ascii) : string := s ++ String c EmptyString.

Definition word_token (w : string) : token :=
  if String.eqb w "and" then TAnd
  else if String.eqb w "or" then TOr
  else if String.eqb w "not" then TNot
  else if String.eqb w "True" then TBool true
  else if String.eqb w "False" then TBool false
  else TName w.

Definition raise_eval {A : Type} (e : eval_error) : result A := Err (EvalError e).

(** The tokens a mode gives when the token it is reading ends. *)
Definition flush (m : lex_mode) : result (list token) :=
  match m with
  | Idle => Ok []
  | InName false w => Ok [word_token w]
  | InName true EmptyString => raise_eval UnexpectedToken
  | InName true w => Ok [TLocal w]
  | InInt z => Ok [TInt z]
  | InStr _ _ => raise_eval UnterminatedString
  | InOp c =>
      if Ascii.eqb c "<" then Ok [TCmp OpLt]
      else if Ascii.eqb c ">" then Ok [TCmp OpGt]
      else raise_eval UnexpectedToken
  end.

(** A character read between tokens. *)
Definition start (c : ascii) : result (list token * lex_mode) :=
  if is_space c then Ok ([], Idle)
  else if is_alpha c then Ok ([], InName false (String c EmptyString))
  else if is_digit c then Ok ([], InInt (digit_value c))
  else if Ascii.eqb c "@" then Ok ([], InName true EmptyString)
  else if Ascii.eqb c dquote_char || Ascii.eqb c squote_char then Ok ([], InStr c EmptyString)
  else if Ascii.eqb c "(" then Ok ([TLParen], Idle)
  else if Ascii.eqb c ")" then Ok ([TRParen], Idle)
  else if Ascii.eqb c "~" then Ok ([TInvert], Idle)
  else if Ascii.eqb c "&" then Ok ([TAnd], Idle)
  else if Ascii.eqb c "|" then Ok ([TOr], Idle)
  else if Ascii.eqb c "." then Ok ([TDot], Idle)
  else if existsb (Ascii.eqb c) ["="; "!"; "<"; ">"]%char then Ok ([], InOp c)
  else raise_eval (UnknownCharacter c).

Definition two_char_op (c : ascii) : cmp_op :=
  if Ascii.eqb c "=" then OpEq
  else if Ascii.eqb c "!" then OpNe
  else if Ascii.eqb c "<" then OpLe
  else OpGe.

Definition flush_then_start (m : lex_mode) (c : ascii) : result (list token * lex_mode) :=
  ts <- flush m ;;
  '(ts', m') <- start c ;;
  Ok ((ts ++ ts')%list, m').

(** One character in a given mode: the tokens completed, the next mode. *)
Definition step (m : lex_mode) (c : ascii) : result (list token * lex_mode) :=
  match m with
  | Idle => start c
  | InName l w =>
      if is_alpha c || is_digit c then Ok ([], InName l (snoc w c))
      else flush_then_start m c
  | InInt z =>
      if is_digit c then Ok ([], InInt (10 * z + digit_value c))
      else if is_alpha c then raise_eval UnexpectedToken
      else flush_then_start m c
  | InStr q w =>
      if Ascii.eqb c q then Ok ([TStr w], Idle)
      else if Ascii.eqb c "\" then raise_eval (UnknownCharacter c)
      else Ok ([], InStr q (snoc w c))
  | InOp c0 =>
      if Ascii.eqb c "=" then Ok ([TCmp (two_char_op c0)], Idle)
      else flush_then_start m c
  end.

Fixpoint lex (m : lex_mode) (s : string) : result (list token) :=
  match s with
  | EmptyString => flush m
  | String c s' =>
      '(ts, m') <- step m c ;;
      rest <- lex m' s' ;;
      Ok (ts ++ rest)%list
  end.

Definition tokenize (s : string) : result (list token) := lex Idle s.

(** ** Expressions *)

Inductive aggregate : Type := AggMax | AggMin.

Inductive expr : Type :=
| EName (s : string)
| EInt (z : Z)
| EStr (s : string)
| EBool (b : bool)
| ELocal (s : string)
| ECmp (op : cmp_op) (e1 e2 : expr)
| EAnd (e1 e2 : expr)
| EOr (e1 e2 : expr)
| EInvert (e : expr)
| EAgg (f : aggregate) (e : expr).

Definition aggregate_of_name (m : string) : option aggregate :=
  if String.eqb m "max" then Some AggMax
  else if String.eqb m "min" then Some AggMin
  else None.

Definition parsed : Type := (expr * list token)%type.

(** The method calls that follow an atom. *)
Fixpoint post_tail (e : expr) (ts : list token) {struct ts} : result parsed :=
  match ts with
  | TDot :: TName m :: TLParen :: TRParen :: r =>
      match aggregate_of_name m with
      | Some a => post_tail (EAgg a e) r
      | None => raise_eval UnexpectedToken
      end
  | TDot :: _ => raise_eval UnexpectedToken
  | _ => Ok (e, ts)
  end.

(** Recursive descent, one function per grammar rule.  Every call uses one
    unit of [fuel]; [parse] supplies enough of it for its token list. *)
Fixpoint parse_or (fuel : nat) (ts : list token) {struct fuel} : result parsed :=
  match fuel with
  | O => raise_eval ParserFuel
  | S f => '(e, r) <- parse_and f ts ;; or_tail f e r
  end
with or_tail (fuel : nat) (e : expr) (ts : list token) {struct fuel} : result parsed :=
  match fuel with
  | O => raise_eval ParserFuel
  | S f =>
      match ts with
      | TOr :: r => '(e2, r') <- parse_and f r ;; or_tail f (EOr e e2) r'
      | _ => Ok (e, ts)
      end
  end
with parse_and (fuel : nat) (ts : list token) {struct fuel} : result parsed :=
  match fuel with
  | O => raise_eval ParserFuel
  | S f => '(e, r) <- parse_not f ts ;; and_tail f e r
  end
with and_tail (fuel : nat) (e : expr) (ts : list token) {struct fuel} : result parsed :=
  match fuel with
  | O => raise_eval ParserFuel
  | S f =>
      match ts with
      | TAnd :: r => '(e2, r') <- parse_not f r ;; and_tail f (EAnd e e2) r'
      | _ => Ok (e, ts)
      end
  end
with parse_not (fuel : nat) (ts : list token) {struct fuel} : result parsed :=
  match fuel with
  | O => raise_eval ParserFuel
  | S f =>
      match ts with
      | TNot :: r => '(e, r') <- parse_not f r ;; Ok (EInvert e, r')
      | _ => parse_cmp f ts
      end
  end
with parse_cmp (fuel : nat) (ts : list token) {struct fuel} : result parsed :=
  match fuel with
  | O => raise_eval ParserFuel
  | S f =>
      '(e1, r) <- parse_unary f ts ;;
      match r with
      | TCmp op :: r' =>
          '(e2, r'') <- parse_unary f r' ;;
          match r'' with
          | TCmp _ :: _ => raise_eval UnexpectedToken    (* chained comparison *)
          | _ => Ok (ECmp op e1 e2, r'')
          end
      | _ => Ok (e1, r)
      end
  end
with parse_unary (fuel : nat) (ts : list token) {struct fuel} : result parsed :=
  match fuel with
  | O => raise_eval ParserFuel
  | S f =>
      match ts with
      | TInvert :: r => '(e, r') <- parse_unary f r ;; Ok (EInvert e, r')
      | _ => '(e, r) <- parse_atom f ts ;; post_tail e r
      end
  end
with parse_atom (fuel : nat) (ts : list token) {struct fuel} : result parsed :=
  match fuel with
  | O => raise_eval ParserFuel
  | S f =>
      match ts with
      | [] => raise_eval UnexpectedEOF
      | TName s :: r => Ok (EName s, r)
      | TInt z :: r => Ok (EInt z, r)
      | TStr s :: r => Ok (EStr s, r)
      | TBool b :: r => Ok (EBool b, r)
      | TLocal s :: r => Ok (ELocal s, r)
      | TLParen :: r =>
          '(e, r') <- parse_or f r ;;
          match r' with
          | TRParen :: r'' => Ok (e, r'')
          | [] => raise_eval UnexpectedEOF
          | _ => raise_eval UnexpectedToken
          end
      | _ => raise_eval UnexpectedToken
      end
  end.

Definition parse_fuel (ts : list token) : nat := 9 * length ts + 9.

Definition parse (ts : list token) : result expr :=
  '(e, r) <- parse_or (parse_fuel ts) ts ;;
  match r with
  | [] => Ok e
  | _ => raise_eval UnexpectedToken
  end.

(** A parser result that did not run out of fuel and, on success, left
    fewer than [n] tokens. *)
Definition within (n : nat) (x : result parsed) : Prop :=
  x <> Err (EvalError ParserFuel)
  /\ forall e r, x = Ok (e, r) -> (length r < n)%nat.

(** ** Evaluation *)

Inductive value : Type :=
| Scalar (c : cell)
| Column (cs : list cell).

Definition cell_number (c : cell) : option Z :=
  match c with
  | CInt z => Some z
  | CBool true => Some 1%Z
  | CBool false => Some 0%Z
  | _ => None
  end.

Definition compare_Z (op : cmp_op) (x y : Z) : bool :=
  match op with
  | OpEq => (x =? y)%Z
  | OpNe => negb (x =? y)%Z
  | OpLt => (x <? y)%Z
  | OpLe => (x <=? y)%Z
  | OpGt => (y <? x)%Z
  | OpGe => (y <=? x)%Z
  end.

Definition compare_string (op : cmp_op) (x y : string) : bool :=
  match op with
  | OpEq => String.eqb x y
  | OpNe => negb (String.eqb x y)
  | OpLt => String.ltb x y
  | OpLe => String.leb x y
  | OpGt => String.ltb y x
  | OpGe => String.leb y x
  end.

(** Comparison of two entries.  A missing entry compares unequal to
    everything; a string and a number are unequal and cannot be ordered. *)
Definition compare_cells (op : cmp_op) (a b : cell) : result cell :=
  match a, b with
  | CNaN, _ | _, CNaN =>
      Ok (CBool match op with OpNe => true | _ => false end)
  | CStr x, CStr y => Ok (CBool (compare_string op x y))
  | CStr _, _ | _, CStr _ =>
      match op with
      | OpEq => Ok (CBool false)
      | OpNe => Ok (CBool true)
      | _ => raise_eval OperandType
      end
  | _, _ =>
      match cell_number a, cell_number b with
      | Some x, Some y => Ok (CBool (compare_Z op x y))
      | _, _ => raise_eval OperandType
      end
  end.

Definition bool_cells (f : bool -> bool -> bool) (a b : cell) : result cell :=
  match a, b with
  | CBool x, CBool y => Ok (CBool (f x y))
  | _, _ => raise_eval OperandType
  end.

Definition invert_cell (a : cell) : result cell :=
  match a with
  | CBool x => Ok (CBool (negb x))
  | _ => raise_eval OperandType
  end.

Fixpoint map_result {A B : Type} (f : A -> result B) (l : list A) : result (list B) :=
  match l with
  | [] => Ok []
  | a :: l' => b <- f a ;; bs <- map_result f l' ;; Ok (b :: bs)
  end.

Fixpoint zip_result {A B C : Type} (f : A -> B -> result C) (l : list A) (l' : list B)
  : result (list C) :=
  match l, l' with
  | [], [] => Ok []
  | a :: l1, b :: l1' => c <- f a b ;; cs <- zip_result f l1 l1' ;; Ok (c :: cs)
  | _, _ => raise_eval OperandType
  end.

(** A binary operator applied entry by entry, a scalar being broadcast. *)
Definition broadcast (f : cell -> cell -> result cell) (v1 v2 : value) : result value :=
  match v1, v2 with
  | Scalar a, Scalar b => c <- f a b ;; Ok (Scalar c)
  | Scalar a, Column bs => cs <- map_result (f a) bs ;; Ok (Column cs)
  | Column cs1, Scalar b => cs <- map_result (fun a => f a b) cs1 ;; Ok (Column cs)
  | Column cs1, Column cs2 => cs <- zip_result f cs1 cs2 ;; Ok (Column cs)
  end.

(** [and]/[or]: pandas refuses an operation between two scalars. *)
Definition broadcast_bool (f : bool -> bool -> bool) (v1 v2 : value) : result value :=
  match v1, v2 with
  | Scalar _, Scalar _ => raise_eval OperandType
  | _, _ => broadcast (bool_cells f) v1 v2
  end.

Definition cell_int (c : cell) : result Z :=
  match c with
  | CInt z => Ok z
  | _ => raise_eval OperandType
  end.

(** [Series.max()] and [Series.min()] of a column of integers; of an empty
    column the result is missing. *)
Definition aggregate_column (f : aggregate) (cs : list cell) : result cell :=
  zs <- map_result cell_int cs ;;
  match zs with
  | [] => Ok CNaN
  | z :: zs' =>
      Ok (CInt (fold_left match f with AggMax => Z.max | AggMin => Z.min end zs' z))
  end.

(** The local variables of [Predictor.predict] that an expression can name
    with [@]: the loop refers to [touched] only. *)
Definition resolve_local (touched : list bool) (name : string) : result value :=
  if String.eqb name "touched" then Ok (Column (map CBool touched))
  else raise_eval (UndefinedVariable name).

Fixpoint eval_expr (df : DataFrame) (touched : list bool) (e : expr) : result value :=
  match e with
  | EName s =>
      match column df s with
      | Some cs => Ok (Column cs)
      | None => raise_eval (UndefinedVariable s)
      end
  | EInt z => Ok (Scalar (CInt z))
  | EStr s => Ok (Scalar (CStr s))
  | EBool b => Ok (Scalar (CBool b))
  | ELocal s => resolve_local touched s
  | ECmp op e1 e2 =>
      v1 <- eval_expr df touched e1 ;;
      v2 <- eval_expr df touched e2 ;;
      broadcast (compare_cells op) v1 v2
  | EAnd e1 e2 =>
      v1 <- eval_expr df touched e1 ;;
      v2 <- eval_expr df touched e2 ;;
      broadcast_bool andb v1 v2
  | EOr e1 e2 =>
      v1 <- eval_expr df touched e1 ;;
      v2 <- eval_expr df touched e2 ;;
      broadcast_bool orb v1 v2
  | EInvert e1 =>
      v <- eval_expr df touched e1 ;;
      match v with
      | Column cs => cs' <- map_result invert_cell cs ;; Ok (Column cs')
      | Scalar _ => raise_eval OperandType
      end
  | EAgg f e1 =>
      v <- eval_expr df touched e1 ;;
      match v with
      | Column cs => c <- aggregate_column f cs ;; Ok (Scalar c)
      | Scalar _ => raise_eval OperandType
      end
  end.

Definition cell_bool (c : cell) : result bool :=
  match c with
  | CBool b => Ok b
  | _ => raise_eval NotAMask
  end.

(** The value must be a boolean column over the index of the frame to be
    used as [output[mask]]. *)
Definition as_mask (n : nat) (v : value) : result (list bool) :=
  match v with
  | Column cs =>
      if (length cs =? n)%nat then map_result cell_bool cs
      else raise_eval NotAMask
  | Scalar _ => raise_eval NotAMask
  end.

Definition parse_text (text : string) : result expr :=
  ts <- tokenize text ;; parse ts.

(** [df.eval(text)] inside [Predictor.predict], used as a mask. *)
Definition df_eval (df : DataFrame) (touched : list bool) (text : string)
  : result (list bool) :=
  e <- parse_text text ;;
  v <- eval_expr df touched e ;;
  as_mask (nrows df) v.

End Pandas.

(* ================================================================== *)
(** * The classes of [lm.py] *)
(* ================================================================== *)

Module Lm.

Import Text Pandas.
Open Scope string_scope.

(** ** Construction *)

(** The first argument of [when], by the type tests of [_coeff]:
    [str], [bool], [numbers.Number] (integers), [None], anything else
    (of which only the truth value is kept). *)
Inductive condition_arg : Type :=
| ArgStr (s : string)
| ArgBool (b : bool)
| ArgNum (n : Z)
| ArgNone
| ArgOther (truthy : bool).

(** [object_id] stands for the identity of the Python object: a
    [LinearModel] uses its predictors as column keys. *)
Record Predictor : Type := mkPredictor {
  object_id : nat;
  property_name : option string;
  conditions : list (condition_arg * Q);
  else_condition_supplied : bool
}.

(** [Predictor.__init__] *)
Definition Predictor_init (oid : nat) (name : option string) : Predictor :=
  {| object_id := oid;
     property_name := name;
     conditions := [];
     else_condition_supplied := false |}.

(** [self.conditions.append((c, v))] *)
Definition append_condition (self : Predictor) (c : condition_arg) (v : Q) : Predictor :=
  {| object_id := object_id self;
     property_name := property_name self;
     conditions := conditions self ++ [(c, v)];
     else_condition_supplied := else_condition_supplied self |}.

(** [self.else_condition_supplied = True] *)
Definition set_else_supplied (self : Predictor) : Predictor :=
  {| object_id := object_id self;
     property_name := property_name self;
     conditions := conditions self;
     else_condition_supplied := true |}.

(** The characters that make a string condition a raw fragment. *)
Definition operator_chars : list ascii :=
  ["="; "<"; ">"; "~"; "("; "."]%char.

Definition starts_expression (c : ascii) : bool :=
  existsb (Ascii.eqb c) operator_chars.

(** The text [_coeff] builds for a string condition [s] whose first
    character is [c0]. *)
Definition parse_str_condition (name : string) (c0 : ascii) (s : string) : string :=
  if starts_expression c0 then "(" ++ name ++ s ++ ")"
  else if isnumeric s then "(" ++ name ++ " == " ++ s ++ ")"
  else "(" ++ name ++ " == " ++ dquote ++ s ++ dquote ++ ")".

Definition msg_one_unconditioned : string :=
  "You can only give one unconditioned value to predictor".
Definition msg_unnamed_otherwise : string :=
  "Can't use `otherwise` condition on unnamed Predictor".

(** [Predictor._coeff].  With two arguments [args] is
    (condition, coefficient); with one, the condition is [None]. *)
Definition _coeff (self : Predictor) (condition : condition_arg) (coefficient : Q)
  : result Predictor :=
  match property_name self with
  | None =>
      (* the supplied condition is used literally *)
      Ok (append_condition self condition coefficient)
  | Some name =>
      match condition with
      | ArgStr s =>
          match s with
          | EmptyString => Err (IndexError "string index out of range")   (* condition[0] *)
          | String c0 _ =>
              Ok (append_condition self (ArgStr (parse_str_condition name c0 s)) coefficient)
          end
      | ArgBool true =>
          Ok (append_condition self (ArgStr ("(" ++ name ++ " == True)")) coefficient)
      | ArgBool false =>
          Ok (append_condition self (ArgStr ("(" ++ name ++ " == False)")) coefficient)
      | ArgNum n =>
          Ok (append_condition self (ArgStr ("(" ++ name ++ " == " ++ str_of_Z n)) coefficient)
      | ArgNone =>
          if else_condition_supplied self
          then Err (AssertionError msg_one_unconditioned)
          else Ok (append_condition (set_else_supplied self) (ArgStr "") coefficient)
      | ArgOther _ => Err (RuntimeError "Unhandled condition")
      end
  end.

(** [Predictor.when] *)
Definition when (self : Predictor) (condition : condition_arg) (value : Q)
  : result Predictor :=
  _coeff self condition value.

(** [Predictor.otherwise] *)
Definition otherwise (self : Predictor) (value : Q) : result Predictor :=
  match property_name self with
  | None => Err (AssertionError msg_unnamed_otherwise)
  | Some _ => _coeff self ArgNone value
  end.

(** ** Evaluation *)

(** An output column: one entry per row, [None] for [NaN]. *)
Definition series : Type := list (option Q).

Fixpoint zip_with {A B C : Type} (f : A -> B -> C) (l : list A) (l' : list B) : list C :=
  match l, l' with
  | a :: l1, b :: l1' => f a b :: zip_with f l1 l1'
  | _, _ => []
  end.

(** [if condition:] on a stored condition: the truth value of the object. *)
Definition truthy (c : condition_arg) : bool :=
  match c with
  | ArgStr EmptyString => false
  | ArgStr _ => true
  | ArgBool b => b
  | ArgNum n => negb (n =? 0)%Z
  | ArgNone => false
  | ArgOther t => t
  end.

Definition not_touched : string := "~@touched".

(** The text handed to [df.eval] for a stored condition.  A true value is
    joined with the test on [touched] (and must be a string for [+] to
    work); a false one ([''], [None], [False], [0]) leaves the test alone. *)
Definition condition_text (c : condition_arg) : result string :=
  if truthy c then
    match c with
    | ArgStr s => Ok (s ++ " & (" ++ not_touched ++ ")")
    | _ => Err (TypeError "unsupported operand type(s) for +")
    end
  else Ok not_touched.

(** [output[mask] = value] *)
Definition assign (output : series) (mask : list bool) (value : Q) : series :=
  zip_with (fun o (m : bool) => if m then Some value else o) output mask.

(** [touched | mask] *)
Definition touch (touched mask : list bool) : list bool :=
  zip_with orb touched mask.

(** The loop of [Predictor.predict] over the remaining rules. *)
Fixpoint predict_rules (df : DataFrame) (rules : list (condition_arg * Q))
         (output : series) (touched : list bool) : result series :=
  match rules with
  | [] => Ok output
  | (condition, value) :: rules' =>
      text <- condition_text condition ;;
      mask <- df_eval df touched text ;;
      predict_rules df rules' (assign output mask value) (touch touched mask)
  end.

(** [Predictor.predict] *)
Definition Predictor_predict (self : Predictor) (df : DataFrame) : result series :=
  predict_rules df (conditions self)
                (repeat None (nrows df)) (repeat false (nrows df)).

Inductive LinearModelType : Type := ADDITIVE | LOGISTIC | MULTIPLICATIVE.

Record LinearModel : Type := mkLinearModel {
  lm_type : LinearModelType;
  intercept : option Q;          (* [None] is Python's [None] *)
  predictors : list Predictor
}.

(** [LinearModel.__init__].  Both assertions hold by typing: [lm_type] is a
    member of the enumeration and every argument is a [Predictor]. *)
Definition LinearModel_init (t : LinearModelType) (c : option Q) (args : list Predictor)
  : result LinearModel :=
  Ok {| lm_type := t; intercept := c; predictors := args |}.

(** The labels of [res_by_predictor]: the string ['__intercept__'] and the
    predictor objects themselves. *)
Inductive label : Type :=
| LIntercept
| LPredictor (oid : nat).

Definition label_eqb (a b : label) : bool :=
  match a, b with
  | LIntercept, LIntercept => true
  | LPredictor i, LPredictor j => (i =? j)%nat
  | _, _ => false
  end.

Definition frame : Type := list (label * series).

(** [frame[key] = col]: an existing column is replaced in place, a new one
    is added last. *)
Fixpoint set_column (key : label) (col : series) (fr : frame) : frame :=
  match fr with
  | [] => [(key, col)]
  | (k, c) :: fr' =>
      if label_eqb k key then (key, col) :: fr'
      else (k, c) :: set_column key col fr'
  end.

(** [res_by_predictor] after ['__intercept__'] is set on the empty frame. *)
Definition intercept_frame (c : Q) (n : nat) : frame :=
  set_column LIntercept (repeat (Some c) n) [].

(** The loop [for predictor in self.predictors]. *)
Fixpoint predict_columns (df : DataFrame) (ps : list Predictor) (fr : frame) : result frame :=
  match ps with
  | [] => Ok fr
  | p :: ps' =>
      col <- Predictor_predict p df ;;
      predict_columns df ps' (set_column (LPredictor (object_id p)) col fr)
  end.

(** The entries of row [i], missing ones dropped ([skipna=True]). *)
Fixpoint present (entries : list (option Q)) : list Q :=
  match entries with
  | [] => []
  | Some q :: es => q :: present es
  | None :: es => present es
  end.

Definition row_entries (fr : frame) (i : nat) : list (option Q) :=
  map (fun kc => nth i (snd kc) None) fr.

Definition row_sum (fr : frame) (i : nat) : Q :=
  fold_left Qplus (present (row_entries fr i)) 0%Q.

Definition row_prod (fr : frame) (i : nat) : Q :=
  fold_left Qmult (present (row_entries fr i)) 1%Q.

Definition logistic (odds : Q) : Q := (odds / (1 + odds))%Q.

Definition combine_row (t : LinearModelType) (fr : frame) (i : nat) : Q :=
  match t with
  | ADDITIVE => row_sum fr i
  | LOGISTIC => logistic (row_prod fr i)
  | MULTIPLICATIVE => row_prod fr i
  end.

Definition msg_no_intercept : string := "Interceipt is not specified".
Definition msg_not_in_df : string := "Predictor variables not in df".

(** [p.property_name in df.columns] for the predictors that have a name. *)
Definition predictor_in_df (df : DataFrame) (p : Predictor) : bool :=
  match property_name p with
  | Some name => has_column df name
  | None => true
  end.

(** [LinearModel.predict] *)
Definition LinearModel_predict (self : LinearModel) (df : DataFrame) : result (list Q) :=
  match intercept self with
  | None => Err (AssertionError msg_no_intercept)
  | Some c =>
      if forallb (predictor_in_df df) (predictors self) then
        fr <- predict_columns df (predictors self) (intercept_frame c (nrows df)) ;;
        Ok (map (combine_row (lm_type self) fr) (seq 0 (nrows df)))
      else Err (AssertionError msg_not_in_df)
  end.


(** ** Vocabulary of the specification *)

(** The predictors that calls of [when] and [otherwise] can produce. *)
Inductive built : Predictor -> Prop :=
| built_init (oid : nat) (name : option string) :
    built (Predictor_init oid name)
| built_when (p p' : Predictor) (c : condition_arg) (v : Q) :
    built p -> when p c v = Ok p' -> built p'
| built_otherwise (p p' : Predictor) (v : Q) :
    built p -> otherwise p v = Ok p' -> built p'.

(** A rule is unconditioned when [predict] tests [touched] alone for it. *)
Definition unconditioned (rule : condition_arg * Q) : bool := negb (truthy (fst rule)).

Definition unconditioned_rules (p : Predictor) : nat :=
  length (filter unconditioned (conditions p)).

(** Expressions without a whole-column aggregate. *)
Fixpoint aggregate_free (e : expr) : bool :=
  match e with
  | EName _ | EInt _ | EStr _ | EBool _ | ELocal _ => true
  | ECmp _ e1 e2 | EAnd e1 e2 | EOr e1 e2 => aggregate_free e1 && aggregate_free e2
  | EInvert e1 => aggregate_free e1
  | EAgg _ _ => false
  end.

(** The names that [eval] does not read as columns: its default globals,
    which it resolves itself before it looks at the columns, and the
    mathematical functions and reductions of its numerical engine, which
    it refuses as names of variables. *)
Definition pandas_names : list string :=
  ["inf"; "Inf"; "Timestamp"; "datetime"; "list"; "tuple";
   "sin"; "cos"; "tan"; "exp"; "log"; "expm1"; "log1p"; "sqrt"; "sinh";
   "cosh"; "tanh"; "arcsin"; "arccos"; "arctan"; "arccosh"; "arcsinh";
   "arctanh"; "abs"; "log10"; "floor"; "ceil"; "arctan2";
   "sum"; "prod"; "min"; "max"].

(** A name that [eval] reads as the column of that name of a table with
    the labels [cols]. *)
Definition names_column (cols : list string) (s : string) : bool :=
  existsb (String.eqb s) cols && negb (existsb (String.eqb s) pandas_names).

(** An expression over the table: every name in it names a column, and
    [touched] is the only local variable it refers to. *)
Fixpoint over_columns (cols : list string) (e : expr) : bool :=
  match e with
  | EName s => names_column cols s
  | ELocal s => String.eqb s "touched"
  | EInt _ | EStr _ | EBool _ => true
  | ECmp _ e1 e2 | EAnd e1 e2 | EOr e1 e2 => over_columns cols e1 && over_columns cols e2
  | EInvert e1 | EAgg _ e1 => over_columns cols e1
  end.

(** A text that is row-local on the tables with the labels [cols]: it is
    read as an expression of the language of [Pandas], over the columns,
    without a whole-column aggregate.  A text that is not read (a method
    other than [max] and [min], arithmetic) is not counted as row-local. *)
Definition row_local_text (cols : list string) (text : string) : bool :=
  match parse_text text with
  | Ok e => aggregate_free e && over_columns cols e
  | Err _ => false
  end.

(** A row-local rule: [predict] forms a text for it, and the text is
    row-local. *)
Definition row_local_rule (cols : list string) (rule : condition_arg * Q) : bool :=
  match condition_text (fst rule) with
  | Ok text => row_local_text cols text
  | Err _ => false
  end.

(** A predictor all of whose rules are row-local. *)
Definition row_local (cols : list string) (p : Predictor) : bool :=
  forallb (row_local_rule cols) (conditions p).

(** Guarded expressions: a conjunction whose last member is the test on
    [touched], or that test alone. *)
Definition guarded_expr (e : expr) : bool :=
  match e with
  | EAnd _ (EInvert (ELocal s)) => String.eqb s "touched"
  | EInvert (ELocal s) => String.eqb s "touched"
  | _ => false
  end.

Definition guarded_rule (rule : condition_arg * Q) : bool :=
  match condition_text (fst rule) with
  | Ok text =>
      match parse_text text with
      | Ok e => guarded_expr e
      | Err _ => true
      end
  | Err _ => true
  end.

(** A mask leaves the rows alone that are marked in [touched]. *)
Definition spares (touched mask : list bool) : Prop :=
  Forall2 (fun (t m : bool) => t = true -> m = false) touched mask.

(** A predictor column that has no value in row [i]. *)
Definition silent_at (i : nat) (kc : label * series) : Prop :=
  fst kc <> LIntercept /\ nth i (snd kc) None = None.

(** *** A table cut in two: [n1] rows, then [n2] rows *)

(** The value of an expression on the whole table, from its values on the
    parts: the same scalar, or the two columns one after the other. *)
Inductive glued (n1 n2 : nat) : value -> value -> value -> Prop :=
| glued_scalar (c : cell) :
    glued n1 n2 (Scalar c) (Scalar c) (Scalar c)
| glued_column (a b : list cell) :
    length a = n1 -> length b = n2 ->
    glued n1 n2 (Column a) (Column b) (Column (a ++ b)%list).

(** [x] succeeds exactly when [x1] and [x2] both do, with the glued value. *)
Definition splits (n1 n2 : nat) (x1 x2 x : result value) : Prop :=
  match x1, x2 with
  | Ok v1, Ok v2 => exists v, x = Ok v /\ glued n1 n2 v1 v2 v
  | _, _ => exists e, x = Err e
  end.

(** The same for results that are lists with one entry per row. *)
Definition splits_list {A : Type} (n1 n2 : nat) (x1 x2 x : result (list A)) : Prop :=
  match x1, x2 with
  | Ok a, Ok b => x = Ok (a ++ b)%list /\ length a = n1 /\ length b = n2
  | _, _ => exists e, x = Err e
  end.

(** Frames over the parts and over the whole: the same labels in the same
    order, each column the concatenation of its two parts. *)
Inductive frames_glued (n1 n2 : nat) : frame -> frame -> frame -> Prop :=
| frames_glued_nil : frames_glued n1 n2 [] [] []
| frames_glued_cons (k : label) (c1 c2 : series) (f1 f2 f : frame) :
    length c1 = n1 -> length c2 = n2 ->
    frames_glued n1 n2 f1 f2 f ->
    frames_glued n1 n2 ((k, c1) :: f1) ((k, c2) :: f2) ((k, (c1 ++ c2)%list) :: f).

End Lm.

(* ================================================================== *)
(** * Tables and predictors used as examples *)
(* ================================================================== *)

Module Examples.

Import Text Pandas Lm.
Open Scope string_scope.

(** [Predictor('sex').otherwise(1)] *)
Definition sex_with_default : Predictor :=
  {| object_id := 0;
     property_name := Some "sex";
     conditions := [(ArgStr "", 1%Q)];
     else_condition_supplied := true |}.

(** A table without the column [sex]. *)
Definition ages_only : DataFrame :=
  {| columns := ["age"]; rows := [[CInt 3]; [CInt 10]] |}.

(** [Predictor('sex').when('M', 1.5)] *)
Definition sex_predictor : Predictor :=
  {| object_id := 0;
     property_name := Some "sex";
     conditions := [(ArgStr ("(sex == " ++ dquote ++ "M" ++ dquote ++ ")"), 3 # 2)];
     else_condition_supplied := false |}.

Definition sexes : DataFrame :=
  {| columns := ["sex"]; rows := [[CStr "M"]; [CStr "F"]] |}.

(** [LinearModel(ADDITIVE, 0.1, Predictor('sex').when('M', 1.5))] *)
Definition additive_sex_model : LinearModel :=
  {| lm_type := ADDITIVE; intercept := Some (1 # 10); predictors := [sex_predictor] |}.

(** [LinearModel(MULTIPLICATIVE, 2, Predictor('sex').when('M', 1.5))] *)
Definition doubling_sex_model : LinearModel :=
  {| lm_type := MULTIPLICATIVE; intercept := Some 2%Q; predictors := [sex_predictor] |}.

(** The raw fragment that spells out the comparison with the string M. *)
Definition raw_equals_M : string := "==" ++ dquote ++ "M" ++ dquote.

(** One row, in which [a] holds and [b] does not. *)
Definition flags : DataFrame :=
  {| columns := ["a"; "b"]; rows := [[CBool true; CBool false]] |}.

(** [Predictor('age').when('== age.max()', 2)] *)
Definition oldest : Predictor :=
  {| object_id := 0;
     property_name := Some "age";
     conditions := [(ArgStr "(age== age.max())", 2%Q)];
     else_condition_supplied := false |}.

Definition ages (rs : list (list cell)) : DataFrame :=
  {| columns := ["age"]; rows := rs |}.

(** Four rows with the sexes M, F, M, F. *)
Definition four_sexes : DataFrame :=
  {| columns := ["sex"];
     rows := [[CStr "M"]; [CStr "F"]; [CStr "M"]; [CStr "F"]] |}.

(** [Predictor('sex').when('M', 1.5).otherwise(1.0)], then a model of type
    [t] with intercept [c] over it, evaluated on [df]; the outputs are
    given in lowest terms. *)
Definition sex_model_output (t : LinearModelType) (c : Q) (df : DataFrame)
  : result (list Q) :=
  p <- when (Predictor_init 0 (Some "sex")) (ArgStr "M") (3 # 2) ;;
  p <- otherwise p 1 ;;
  lm <- LinearModel_init t (Some c) [p] ;;
  out <- LinearModel_predict lm df ;;
  Ok (map Qred out).

(** [Predictor('sex').when('M', 1.5).otherwise(1)] *)
Definition sex_m_else_1 : Predictor :=
  {| object_id := 0;
     property_name := Some "sex";
     conditions := [(ArgStr ("(sex == " ++ dquote ++ "M" ++ dquote ++ ")"), 3 # 2);
                    (ArgStr "", 1)];
     else_condition_supplied := true |}.

(** [Predictor('sex').otherwise(1.5)], a second object. *)
Definition sex_with_default_1 : Predictor :=
  {| object_id := 1;
     property_name := Some "sex";
     conditions := [(ArgStr "", 3 # 2)];
     else_condition_supplied := true |}.

(** [Predictor().when(None, 1).when(None, 2)] *)
Definition two_defaults : Predictor :=
  {| object_id := 0;
     property_name := None;
     conditions := [(ArgNone, 1); (ArgNone, 2)];
     else_condition_supplied := false |}.

End Examples.

(* ================================================================== *)
(** * Chains of calls and intermediate states *)
(* ================================================================== *)

From Stdlib Require Import Permutation.

Module Usage.

Import Text Pandas Lm.
Open Scope string_scope.

(** A predictor is written as a chain
    [Predictor(name).when(c1, v1). ... .otherwise(v)]: every method
    returns [self], so the next call works on the predictor that the
    previous one left. *)
Inductive call : Type :=
| CallWhen (condition : condition_arg) (value : Q)
| CallOtherwise (value : Q).

Definition call_value (k : call) : Q :=
  match k with
  | CallWhen _ v => v
  | CallOtherwise v => v
  end.

Definition apply_call (p : Predictor) (k : call) : result Predictor :=
  match k with
  | CallWhen c v => when p c v
  | CallOtherwise v => otherwise p v
  end.

Fixpoint apply_calls (p : Predictor) (ks : list call) : result Predictor :=
  match ks with
  | [] => Ok p
  | k :: ks' => p' <- apply_call p k ;; apply_calls p' ks'
  end.

(** The loop of [Predictor.predict] with its two local variables, [output]
    and [touched], as they stand after the last rule. *)
Fixpoint run_rules (df : DataFrame) (rules : list (condition_arg * Q))
         (output : series) (touched : list bool) : result (series * list bool) :=
  match rules with
  | [] => Ok (output, touched)
  | (condition, value) :: rules' =>
      text <- condition_text condition ;;
      mask <- df_eval df touched text ;;
      run_rules df rules' (assign output mask value) (touch touched mask)
  end.

(** [frame[key]], if the label is present. *)
Fixpoint column_of (key : label) (fr : frame) : option series :=
  match fr with
  | [] => None
  | (k, c) :: fr' => if label_eqb k key then Some c else column_of key fr'
  end.

(** The rules stored in a named predictor are texts: the empty one for
    [otherwise], or one that opens with a parenthesis. *)
Definition stored_text (rule : condition_arg * Q) : Prop :=
  exists s, fst rule = ArgStr s
            /\ (s = ""%string \/ exists s', s = String "("%char s').

(** Every touched row has a value. *)
Definition marked (output : series) (touched : list bool) : Prop :=
  Forall2 (fun (o : option Q) (t : bool) => t = true -> o <> None) output touched.

Definition all_touched (touched : list bool) : Prop :=
  Forall (fun t : bool => t = true) touched.

(** The labels of a frame, in column order. *)
Definition keys (fr : frame) : list label := map fst fr.

(** The column that a predictor contributes to [res_by_predictor]. *)
Definition entry (df : DataFrame) (p : Predictor) : label * series :=
  (LPredictor (object_id p),
   match Predictor_predict p df with
   | Ok col => col
   | Err _ => []
   end).

Definition predicts (df : DataFrame) (p : Predictor) : bool :=
  is_ok (Predictor_predict p df).

(** *** Literal conditions *)

Definition is_name_char (c : ascii) : bool := is_alpha c || is_digit c.

(** The reserved words of Python. *)
Definition is_keyword (w : string) : bool :=
  existsb (String.eqb w)
    ["and"; "or"; "not"; "True"; "False"; "None"; "as"; "assert"; "async";
     "await"; "break"; "class"; "continue"; "def"; "del"; "elif"; "else";
     "except"; "finally"; "for"; "from"; "global"; "if"; "import"; "in";
     "is"; "lambda"; "nonlocal"; "pass"; "raise"; "return"; "try"; "while";
     "with"; "yield"].

(** A column name that can be written as it is in an expression: a letter
    or underscore, then letters, digits and underscores, and not a
    reserved word. *)
Definition is_identifier (w : string) : bool :=
  match w with
  | EmptyString => false
  | String c w' => is_alpha c && all_chars is_name_char w'
  end && negb (is_keyword w).

(** A name under which an expression reads a column of the table: an
    identifier that [eval] does not resolve itself. *)
Definition is_column_name (w : string) : bool :=
  is_identifier w && negb (existsb (String.eqb w) pandas_names).

(** A character that can stand inside a string literal closed by [q]: a
    printable one other than [q] and the backslash. *)
Definition plain_char (q c : ascii) : bool :=
  negb (Ascii.eqb c q) && negb (Ascii.eqb c "\")
  && ((32 <=? nat_of_ascii c)%nat && (nat_of_ascii c <=? 126)%nat).

(** [int(s)] for a string of digits, continuing from [z]. *)
Fixpoint digits_value (z : Z) (s : string) : Z :=
  match s with
  | EmptyString => z
  | String c s' => digits_value (10 * z + digit_value c) s'
  end.

(** A number is not written with zeros in front. *)
Definition no_leading_zero (s : string) : bool :=
  match s with
  | String c0 (String _ _) => negb (Ascii.eqb c0 "0")
  | _ => true
  end.

(** The literal that a condition of [when] stands for on a named
    predictor, by the branches of [_coeff]: a string of digits is the
    number it spells, another string that does not open with an operator
    character is itself, a boolean is itself. *)
Definition literal_cell (c : condition_arg) : option cell :=
  match c with
  | ArgStr EmptyString => None
  | ArgStr (String c0 s' as s) =>
      if starts_expression c0 then None
      else if isnumeric s then
        if no_leading_zero s then Some (CInt (digits_value 0 s)) else None
      else if all_chars (plain_char dquote_char) s then Some (CStr s)
      else None
  | ArgBool b => Some (CBool b)
  | _ => None
  end.

Definition literal_expr (l : cell) : expr :=
  match l with
  | CStr s => EStr s
  | CInt z => EInt z
  | CBool b => EBool b
  | CNaN => EName "nan"
  end.

(** [attribute == literal], then the test on [touched]. *)
Definition guarded_equality (name : string) (l : cell) : expr :=
  EAnd (ECmp OpEq (EName name) (literal_expr l)) (EInvert (ELocal "touched")).

(** The tokens of [& (~@touched)]. *)
Definition guard_tokens : list token :=
  [TAnd; TLParen; TInvert; TLocal "touched"; TRParen].

(** [a == l] as [eval] decides it for two entries. *)
Definition cell_equals (a l : cell) : bool :=
  match compare_cells OpEq a l with
  | Ok (CBool b) => b
  | _ => false
  end.

(** The whole numbers that a column of floats holds exactly. *)
Definition exact_number (z : Z) : bool := (Z.abs z <=? 2 ^ 53)%Z.

(** An entry that is of the kind of the literal [l], or missing: a string
    for a string, a whole number for a whole number, a boolean for a
    boolean.  Numbers are kept in the range in which a column of integers
    that has missing entries, and so is stored as floats, is exact. *)
Definition same_kind (l a : cell) : bool :=
  match l, a with
  | CStr _, (CStr _ | CNaN) => true
  | CInt x, CInt y => exact_number x && exact_number y
  | CInt x, CNaN => exact_number x
  | CBool _, (CBool _ | CNaN) => true
  | _, _ => false
  end.

(** A call whose condition is a literal, or [otherwise]. *)
Definition literal_call (k : call) : bool :=
  match k with
  | CallWhen c _ =>
      match literal_cell c with
      | Some _ => true
      | None => false
      end
  | CallOtherwise _ => true
  end.

(** What a literal call tests: equality with its literal, or nothing. *)
Definition call_test (k : call) : option cell :=
  match k with
  | CallWhen c _ => literal_cell c
  | CallOtherwise _ => None
  end.

(** The entries of a column are of the kind that the call tests. *)
Definition call_fits (cs : list cell) (k : call) : bool :=
  match call_test k with
  | Some l => forallb (same_kind l) cs
  | None => true
  end.

Definition call_matches (a : cell) (k : call) : bool :=
  match call_test k with
  | Some l => cell_equals a l
  | None => true
  end.

(** The value of the first call of the chain that matches the entry. *)
Definition first_match (ks : list call) (a : cell) : option Q :=
  option_map call_value (find (call_matches a) ks).

(** One row through the rules of a chain: its entry of [output] and its
    mark in [touched]. *)
Fixpoint row_run (ks : list call) (a : cell) (o : option Q) (t : bool) : option Q * bool :=
  match ks with
  | [] => (o, t)
  | k :: ks' =>
      let m := call_matches a k && negb t in
      row_run ks' a (if m then Some (call_value k) else o) (t || m)
  end.

(** A stored rule together with the call that stored it: the text that
    [predict] forms for the rule parses as the test of the call. *)
Definition stores (name : string) (k : call) (rule : condition_arg * Q) : Prop :=
  snd rule = call_value k
  /\ exists text,
       condition_text (fst rule) = Ok text
       /\ parse_text text
          = Ok match call_test k with
               | Some l => guarded_equality name l
               | None => EInvert (ELocal "touched")
               end.

End Usage.

(* ================================================================== *)
(** * The parser never runs out of fuel *)
(* ================================================================== *)

Module ParserTotality.

Import Text Pandas.
Open Scope list_scope.

Lemma within_error (n : nat) (e : eval_error) :
  e <> ParserFuel -> within n (Err (EvalError e)).
Proof.
  intros He. split.
  - intros H. injection H as H. contradiction.
  - intros e' r H. discriminate H.
Qed.

Lemma within_ok (n : nat) (e : expr) (r : list token) :
  (length r < n)%nat -> within n (Ok (e, r)).
Proof.
  intros Hr. split.
  - discriminate.
  - intros e' r' H. injection H as _ <-. exact Hr.
Qed.

Lemma within_weaken (n m : nat) (x : result parsed) :
  (n <= m)%nat -> within n x -> within m x.
Proof.
  intros Hnm [Hfuel Hlen]. split; [exact Hfuel|].
  intros e r H. specialize (Hlen e r H). lia.
Qed.

Lemma within_bind (m n : nat) (x : result parsed) (k : parsed -> result parsed) :
  within m x ->
  (forall e r, (length r < m)%nat -> within n (k (e, r))) ->
  within n (bind x k).
Proof.
  intros [Hfuel Hlen] Hk. destruct x as [[e r]|err]; cbn [bind].
  - apply Hk. apply (Hlen e r). reflexivity.
  - split; [exact Hfuel | intros e r H; discriminate H].
Qed.

Ltac other_error := apply within_error; discriminate.

Lemma post_tail_within (n : nat) :
  forall (ts : list token) (e : expr),
    (length ts <= n)%nat -> within (S (length ts)) (post_tail e ts).
Proof.
  induction n as [|n IH]; intros ts e Hn.
  - destruct ts; [|cbn [length] in Hn; lia]. apply within_ok. cbn [length]. lia.
  - destruct ts as [|t1 ts]; [apply within_ok; cbn [length]; lia|].
    destruct t1; try (apply within_ok; cbn [length]; lia).
    destruct ts as [|t2 ts]; [other_error|].
    destruct t2; try other_error.
    destruct ts as [|t3 ts]; [other_error|].
    destruct t3; try other_error.
    destruct ts as [|t4 ts]; [other_error|].
    destruct t4; try other_error.
    cbn [post_tail]. destruct (aggregate_of_name s) as [a|]; [|other_error].
    apply (within_weaken (S (length ts))); [cbn [length]; lia|].
    apply IH. cbn [length] in Hn. lia.
Qed.

(** The amount of fuel that each function needs for [n] tokens. *)
Lemma enough_fuel (fuel : nat) :
  (forall ts, (9 * length ts + 1 <= fuel)%nat -> within (length ts) (parse_atom fuel ts))
  /\ (forall ts, (9 * length ts + 2 <= fuel)%nat -> within (length ts) (parse_unary fuel ts))
  /\ (forall ts, (9 * length ts + 3 <= fuel)%nat -> within (length ts) (parse_cmp fuel ts))
  /\ (forall ts, (9 * length ts + 4 <= fuel)%nat -> within (length ts) (parse_not fuel ts))
  /\ (forall ts e, (9 * length ts + 5 <= fuel)%nat ->
        within (S (length ts)) (and_tail fuel e ts))
  /\ (forall ts, (9 * length ts + 5 <= fuel)%nat -> within (length ts) (parse_and fuel ts))
  /\ (forall ts e, (9 * length ts + 6 <= fuel)%nat ->
        within (S (length ts)) (or_tail fuel e ts))
  /\ (forall ts, (9 * length ts + 6 <= fuel)%nat -> within (length ts) (parse_or fuel ts)).
Proof.
  induction fuel as [|f (IHatom & IHunary & IHcmp & IHnot & IHandt & IHand & IHort & IHor)].
  - repeat split; intros; lia.
  - repeat apply conj.
    + (* parse_atom *)
      intros ts Hf. cbn [parse_atom].
      destruct ts as [|t r]; [other_error|]. cbn [length] in *.
      destruct t; try (apply within_ok; lia); try other_error.
      apply (within_bind (length r)); [apply IHor; lia|].
      intros e r' Hr'. cbn iota beta.
      destruct r' as [|t' r'']; [other_error|].
      destruct t'; try other_error.
      apply within_ok. cbn [length] in Hr'. lia.
    + (* parse_unary *)
      intros ts Hf. cbn [parse_unary].
      assert (Hpost : within (length ts)
                (bind (parse_atom f ts) (fun x => let '(e, r) := x in post_tail e r))).
      { apply (within_bind (length ts)); [apply IHatom; lia|].
        intros e r Hr. cbn iota beta.
        apply (within_weaken (S (length r))); [lia|].
        apply (post_tail_within (length r)). lia. }
      destruct ts as [|t r]; [exact Hpost|].
      destruct t; try exact Hpost. cbn [length] in *.
      apply (within_bind (length r)); [apply IHunary; lia|].
      intros e r' Hr'. cbn iota beta. apply within_ok. lia.
    + (* parse_cmp *)
      intros ts Hf. cbn [parse_cmp].
      apply (within_bind (length ts)); [apply IHunary; lia|].
      intros e1 r Hr. cbn iota beta.
      destruct r as [|t r']; [apply within_ok; exact Hr|].
      destruct t; try (apply within_ok; exact Hr). cbn [length] in Hr.
      apply (within_bind (length r')); [apply IHunary; lia|].
      intros e2 r'' Hr''. cbn iota beta.
      destruct r'' as [|t' r3]; [apply within_ok; cbn [length]; lia|].
      destruct t'; try (apply within_ok; cbn [length] in *; lia).
      other_error.
    + (* parse_not *)
      intros ts Hf. cbn [parse_not].
      assert (Hcmp : within (length ts) (parse_cmp f ts)) by (apply IHcmp; lia).
      destruct ts as [|t r]; [exact Hcmp|].
      destruct t; try exact Hcmp. cbn [length] in *.
      apply (within_bind (length r)); [apply IHnot; lia|].
      intros e r' Hr'. cbn iota beta. apply within_ok. lia.
    + (* and_tail *)
      intros ts e Hf. cbn [and_tail].
      destruct ts as [|t r]; [apply within_ok; cbn [length]; lia|].
      destruct t; try (apply within_ok; cbn [length]; lia). cbn [length] in *.
      apply (within_bind (length r)); [apply IHnot; lia|].
      intros e2 r' Hr'. cbn iota beta.
      apply (within_weaken (S (length r'))); [lia|]. apply IHandt. lia.
    + (* parse_and *)
      intros ts Hf. cbn [parse_and].
      apply (within_bind (length ts)); [apply IHnot; lia|].
      intros e r Hr. cbn iota beta.
      apply (within_weaken (S (length r))); [lia|]. apply IHandt. lia.
    + (* or_tail *)
      intros ts e Hf. cbn [or_tail].
      destruct ts as [|t r]; [apply within_ok; cbn [length]; lia|].
      destruct t; try (apply within_ok; cbn [length]; lia). cbn [length] in *.
      apply (within_bind (length r)); [apply IHand; lia|].
      intros e2 r' Hr'. cbn iota beta.
      apply (within_weaken (S (length r'))); [lia|]. apply IHort. lia.
    + (* parse_or *)
      intros ts Hf. cbn [parse_or].
      apply (within_bind (length ts)); [apply IHand; lia|].
      intros e r Hr. cbn iota beta.
      apply (within_weaken (S (length r))); [lia|]. apply IHort. lia.
Qed.

(** [parse] gives its parser enough fuel: the result of parsing a token
    list is an expression or an error of the expression itself. *)
Theorem parse_fuel_suffices (ts : list token) :
  parse ts <> Err (EvalError ParserFuel).
Proof.
  unfold parse.
  destruct (enough_fuel (parse_fuel ts)) as (_ & _ & _ & _ & _ & _ & _ & Hor).
  destruct (Hor ts) as [Hfuel _]; [unfold parse_fuel; lia|].
  destruct (parse_or (parse_fuel ts) ts) as [[e r]|err]; cbn [bind].
  - destruct r; discriminate.
  - intros H. apply Hfuel. injection H as ->. reflexivity.
Qed.

End ParserTotality.

(* ================================================================== *)
(** * Entry-wise operations on columns *)
(* ================================================================== *)

Module Elementwise.

Import Pandas Lm.
Open Scope list_scope.

Lemma map_result_app {A B : Type} (f : A -> result B) (l l' : list A) :
  map_result f (l ++ l')
  = (x <- map_result f l ;; y <- map_result f l' ;; Ok (x ++ y)).
Proof.
  induction l as [|a l IH]; cbn [app map_result bind].
  - destruct (map_result f l'); reflexivity.
  - destruct (f a) as [b|e]; cbn [bind]; [|reflexivity].
    rewrite IH.
    destruct (map_result f l) as [x|e]; cbn [bind]; [|reflexivity].
    destruct (map_result f l') as [y|e]; reflexivity.
Qed.

Lemma map_result_length {A B : Type} (f : A -> result B) (l : list A) (l' : list B) :
  map_result f l = Ok l' -> length l' = length l.
Proof.
  revert l'; induction l as [|a l IH]; intros l' H; cbn [map_result bind] in H.
  - injection H as <-. reflexivity.
  - destruct (f a) as [b|e]; cbn [bind] in H; [|discriminate].
    destruct (map_result f l) as [x|e]; cbn [bind] in H; [|discriminate].
    injection H as <-. cbn [length]. f_equal. apply IH. reflexivity.
Qed.

Lemma zip_result_app {A B C : Type} (f : A -> B -> result C)
      (l1 l2 : list A) (l1' l2' : list B) :
  length l1 = length l1' ->
  zip_result f (l1 ++ l2) (l1' ++ l2')
  = (x <- zip_result f l1 l1' ;; y <- zip_result f l2 l2' ;; Ok (x ++ y)).
Proof.
  revert l1'; induction l1 as [|a l1 IH]; intros [|b l1'] Hlen;
    try discriminate Hlen; cbn [app zip_result bind].
  - destruct (zip_result f l2 l2'); reflexivity.
  - destruct (f a b) as [c|e]; cbn [bind]; [|reflexivity].
    rewrite IH by (injection Hlen as Hlen; exact Hlen).
    destruct (zip_result f l1 l1') as [x|e]; cbn [bind]; [|reflexivity].
    destruct (zip_result f l2 l2') as [y|e]; reflexivity.
Qed.

Lemma zip_result_length {A B C : Type} (f : A -> B -> result C)
      (l : list A) (l' : list B) (r : list C) :
  zip_result f l l' = Ok r -> length r = length l.
Proof.
  revert l' r; induction l as [|a l IH]; intros [|b l'] r H;
    cbn [zip_result bind] in H; try discriminate H.
  - injection H as <-. reflexivity.
  - destruct (f a b) as [c|e]; cbn [bind] in H; [|discriminate].
    destruct (zip_result f l l') as [x|e] eqn:Hx; cbn [bind] in H; [|discriminate].
    injection H as <-. cbn [length]. f_equal. apply (IH l' x Hx).
Qed.

Lemma zip_with_app {A B C : Type} (f : A -> B -> C)
      (l1 l2 : list A) (l1' l2' : list B) :
  length l1 = length l1' ->
  zip_with f (l1 ++ l2) (l1' ++ l2') = zip_with f l1 l1' ++ zip_with f l2 l2'.
Proof.
  revert l1'; induction l1 as [|a l1 IH]; intros [|b l1'] Hlen;
    try discriminate Hlen; cbn [app zip_with].
  - reflexivity.
  - f_equal. apply IH. injection Hlen as Hlen. exact Hlen.
Qed.

Lemma zip_with_length {A B C : Type} (f : A -> B -> C) (l : list A) (l' : list B) :
  length l = length l' -> length (zip_with f l l') = length l.
Proof.
  revert l'; induction l as [|a l IH]; intros [|b l'] Hlen;
    try discriminate Hlen; cbn [zip_with length].
  - reflexivity.
  - f_equal. apply IH. injection Hlen as Hlen. exact Hlen.
Qed.

Lemma nth_zip_with {A B C : Type} (f : A -> B -> C) (a : A) (b : B)
      (l : list A) (l' : list B) (i : nat) :
  length l = length l' ->
  nth i (zip_with f l l') (f a b) = f (nth i l a) (nth i l' b).
Proof.
  revert l' i; induction l as [|x l IH]; intros [|y l'] i Hlen;
    try discriminate Hlen; cbn [zip_with].
  - destruct i; reflexivity.
  - destruct i as [|i]; cbn [nth]; [reflexivity|].
    apply IH. injection Hlen as Hlen. exact Hlen.
Qed.

End Elementwise.

(* ================================================================== *)
(** * Construction of predictors *)
(* ================================================================== *)

Module PredictorConstruction.

Import Text Pandas Lm Examples.
Open Scope string_scope.

Lemma parse_str_condition_truthy (name : string) (c0 : ascii) (s : string) :
  truthy (ArgStr (parse_str_condition name c0 s)) = true.
Proof.
  unfold parse_str_condition.
  destruct (starts_expression c0); [reflexivity|].
  destruct (isnumeric s); reflexivity.
Qed.

Lemma unconditioned_rules_append (p : Predictor) (c : condition_arg) (v : Q) :
  unconditioned_rules (append_condition p c v)
  = (unconditioned_rules p + (if truthy c then 0 else 1))%nat.
Proof.
  unfold unconditioned_rules, append_condition; simpl.
  rewrite filter_app, length_app. simpl.
  unfold unconditioned at 2; simpl.
  destruct (truthy c); reflexivity.
Qed.

(** What [_coeff] does to a named predictor, case by case: the name is
    kept, and the number of unconditioned rules and the flag move together. *)
Lemma _coeff_named (p p' : Predictor) (c : condition_arg) (v : Q) (name : string) :
  property_name p = Some name ->
  _coeff p c v = Ok p' ->
  property_name p' = Some name
  /\ ((c <> ArgNone /\ unconditioned_rules p' = unconditioned_rules p
       /\ else_condition_supplied p' = else_condition_supplied p)
      \/ (c = ArgNone /\ else_condition_supplied p = false
          /\ unconditioned_rules p' = S (unconditioned_rules p)
          /\ else_condition_supplied p' = true)).
Proof.
  intros Hname H. unfold _coeff in H. rewrite Hname in H.
  destruct c as [s|b|n| |t].
  - destruct s as [|c0 s']; [discriminate|].
    injection H as <-. split; [exact Hname|]. left.
    rewrite unconditioned_rules_append, parse_str_condition_truthy.
    repeat split; [discriminate | lia].
  - destruct b; injection H as <-; (split; [exact Hname|]); left;
      rewrite unconditioned_rules_append; simpl;
      (repeat split; [discriminate | lia]).
  - injection H as <-. split; [exact Hname|]. left.
    rewrite unconditioned_rules_append; simpl.
    repeat split; [discriminate | lia].
  - destruct (else_condition_supplied p) eqn:Hflag; [discriminate|].
    injection H as <-. split; [exact Hname|]. right.
    rewrite unconditioned_rules_append; simpl.
    repeat split. unfold unconditioned_rules; simpl. lia.
  - discriminate.
Qed.

(** The flag of a named predictor counts its unconditioned rules. *)
Lemma built_named_flag (p : Predictor) :
  built p ->
  property_name p <> None ->
  unconditioned_rules p = if else_condition_supplied p then 1%nat else 0%nat.
Proof.
  induction 1 as [oid name | p p' c v Hb IH Hw | p p' v Hb IH Ho]; intros Hn.
  - reflexivity.
  - unfold when in Hw.
    destruct (property_name p) as [name|] eqn:Hname.
    + destruct (_coeff_named p p' c v name Hname Hw) as [_ [(_ & Hu & Hf) | (_ & Hf & Hu & Hf')]].
      * rewrite Hu, Hf. apply IH. discriminate.
      * rewrite Hu, Hf', IH, Hf by discriminate. reflexivity.
    + unfold _coeff in Hw. rewrite Hname in Hw. injection Hw as <-.
      simpl in Hn. contradiction.
  - unfold otherwise in Ho.
    destruct (property_name p) as [name|] eqn:Hname; [|discriminate].
    destruct (_coeff_named p p' ArgNone v name Hname Ho) as [_ [(Hc & _) | (_ & Hf & Hu & Hf')]].
    + contradiction.
    + rewrite Hu, Hf', IH, Hf by discriminate. reflexivity.
Qed.

(** [_coeff] keeps the name of the predictor. *)
Lemma _coeff_keeps_name (p p' : Predictor) (c : condition_arg) (v : Q) :
  _coeff p c v = Ok p' -> property_name p' = property_name p.
Proof.
  intros H. destruct (property_name p) as [name|] eqn:Hname.
  - apply (_coeff_named p p' c v name Hname H).
  - unfold _coeff in H. rewrite Hname in H. injection H as <-. exact Hname.
Qed.

(** On a predictor without a name the flag is never set. *)
Lemma built_unnamed_flag (p : Predictor) :
  built p ->
  property_name p = None ->
  else_condition_supplied p = false.
Proof.
  induction 1 as [oid name | p p' c v Hb IH Hw | p p' v Hb IH Ho]; intros Hn.
  - reflexivity.
  - unfold when in Hw. pose proof (_coeff_keeps_name p p' c v Hw) as Hkeep.
    rewrite Hn in Hkeep. symmetry in Hkeep.
    unfold _coeff in Hw. rewrite Hkeep in Hw. injection Hw as <-.
    cbn [append_condition else_condition_supplied]. apply IH. exact Hkeep.
  - unfold otherwise in Ho.
    destruct (property_name p) as [name|] eqn:Hname; [|discriminate].
    pose proof (_coeff_keeps_name p p' ArgNone v Ho) as Hkeep.
    rewrite Hname, Hn in Hkeep. discriminate.
Qed.

(** C9, for predictors with a name.  [otherwise] on a predictor without a
    name fails its assertion, so that its flag is never set.  A named
    predictor built by [when] and [otherwise] holds at most one
    unconditioned rule: while it holds none [otherwise] adds one, and once
    it holds one every further [otherwise] fails its assertion. *)
Theorem at_most_one_unconditioned_rule (p : Predictor) (v : Q) (Hb : built p) :
  (property_name p = None ->
     else_condition_supplied p = false
     /\ otherwise p v = Err (AssertionError msg_unnamed_otherwise))
  /\ (property_name p <> None ->
        (unconditioned_rules p <= 1)%nat
        /\ (unconditioned_rules p = 1%nat ->
              otherwise p v = Err (AssertionError msg_one_unconditioned))
        /\ (unconditioned_rules p = 0%nat ->
              exists p', otherwise p v = Ok p' /\ unconditioned_rules p' = 1%nat)).
Proof.
  split.
  - intros Hn. split; [apply (built_unnamed_flag p Hb Hn)|].
    unfold otherwise. rewrite Hn. reflexivity.
  - intros Hn. pose proof (built_named_flag p Hb Hn) as Hflag.
    destruct (property_name p) as [name|] eqn:Hname; [|contradiction].
    unfold otherwise, _coeff. rewrite Hname.
    destruct (else_condition_supplied p).
    + split; [lia|]. split; [reflexivity|]. intros H0; lia.
    + split; [lia|]. split; [intros H1; lia|].
      intros _. eexists. split; [reflexivity|].
      rewrite unconditioned_rules_append. simpl.
      unfold unconditioned_rules in *. simpl. lia.
Qed.

Lemma sex_with_default_built : built sex_with_default.
Proof.
  apply (built_otherwise (Predictor_init 0 (Some "sex")) _ 1%Q).
  - constructor.
  - reflexivity.
Qed.

Lemma at_most_one_unconditioned_rule_witness :
  built sex_with_default
  /\ (unconditioned_rules sex_with_default <= 1)%nat
  /\ otherwise sex_with_default 2%Q = Err (AssertionError msg_one_unconditioned).
Proof.
  split; [exact sex_with_default_built|].
  destruct (at_most_one_unconditioned_rule sex_with_default 2%Q sex_with_default_built)
    as [_ H].
  destruct H as (Hle & Hone & _); [discriminate|].
  split; [exact Hle|]. apply Hone. reflexivity.
Defined.

(** C9, as stated for every predictor, fails.  On a predictor without a
    name [when] stores its condition as it is, [None] included, and does
    not look at the flag: [Predictor().when(None, 1).when(None, 2)] is
    built without an error and holds two rules for each of which
    [predict] tests [touched] alone, so that the first one takes every
    row. *)
Lemma unnamed_predictor_holds_two_unconditioned_rules :
  (p <- when (Predictor_init 0 None) ArgNone 1 ;; when p ArgNone 2) = Ok two_defaults
  /\ built two_defaults
  /\ property_name two_defaults = None
  /\ unconditioned_rules two_defaults = 2%nat
  /\ map (fun rule => condition_text (fst rule)) (conditions two_defaults)
     = [Ok not_touched; Ok not_touched]
  /\ Predictor_predict two_defaults sexes = Ok [Some 1%Q; Some 1%Q].
Proof.
  split; [reflexivity|]. split.
  - apply (built_when (append_condition (Predictor_init 0 None) ArgNone 1) _ ArgNone 2).
    + apply (built_when (Predictor_init 0 None) _ ArgNone 1); [constructor | reflexivity].
    + reflexivity.
  - repeat split; vm_compute; reflexivity.
Qed.

(** C10.  On a predictor with a name, [when] with the empty string reads
    [condition[0]] of an empty string: the call ends in [IndexError], no
    rule is added and no assertion is involved. *)
Theorem when_empty_string_index_error
  (self : Predictor) (name : string) (value : Q)
  (Hname : property_name self = Some name) :
  when self (ArgStr "") value = Err (IndexError "string index out of range").
Proof.
  unfold when, _coeff. rewrite Hname. reflexivity.
Qed.

Lemma when_empty_string_index_error_witness :
  property_name (Predictor_init 0 (Some "sex")) = Some "sex"
  /\ when (Predictor_init 0 (Some "sex")) (ArgStr "") 1%Q
     = Err (IndexError "string index out of range").
Proof.
  split; [reflexivity|].
  apply (when_empty_string_index_error (Predictor_init 0 (Some "sex")) "sex" 1%Q).
  reflexivity.
Defined.

End PredictorConstruction.

(* ================================================================== *)
(** * Validation and composition in [LinearModel] *)
(* ================================================================== *)

Module LinearModelChecks.

Import Text Pandas Lm Examples.
Open Scope string_scope.

(** ** Exact arithmetic with the neutral elements *)

Lemma Qmult_one_left (q : Q) : (1 * q)%Q = q.
Proof.
  destruct q as [n d]. unfold Qmult; simpl.
  destruct n; reflexivity.
Qed.

Lemma Qplus_zero_left (q : Q) : (0 + q)%Q = q.
Proof.
  destruct q as [n d]. unfold Qplus; simpl.
  rewrite Z.mul_1_r. reflexivity.
Qed.

Lemma nth_repeat_lt {A : Type} (a d : A) (n i : nat) :
  (i < n)%nat -> nth i (repeat a n) d = a.
Proof.
  revert i; induction n as [|n IH]; intros i Hi; [lia|].
  destruct i as [|i]; simpl; [reflexivity|]. apply IH. lia.
Qed.

Lemma map_constant_on_seq {A : Type} (f : nat -> A) (a : A) (n : nat) :
  (forall i, (i < n)%nat -> f i = a) ->
  map f (seq 0 n) = repeat a n.
Proof.
  intros H.
  rewrite (map_ext_in f (fun _ => a)).
  - rewrite map_const, length_seq. reflexivity.
  - intros i Hi. apply in_seq in Hi. apply H. lia.
Qed.

(** ** The intercept *)

(** C8, as the code has it.  [LinearModel.__init__] stores whatever
    intercept it is given, [None] included, and returns the model; the
    assertion on the intercept is the first statement of [predict], so the
    model without an intercept is refused by every call of [predict], on
    every table. *)
Theorem missing_intercept_refused_by_predict
  (t : LinearModelType) (args : list Predictor) (df : DataFrame) :
  exists lm,
    LinearModel_init t None args = Ok lm
    /\ intercept lm = None
    /\ LinearModel_predict lm df = Err (AssertionError msg_no_intercept).
Proof.
  eexists. split; [reflexivity|]. split; reflexivity.
Qed.

(** C8, as stated, fails: building an additive model with [None] for the
    intercept returns a model, not an error. *)
Lemma init_without_intercept_succeeds :
  LinearModel_init ADDITIVE None []
  = Ok {| lm_type := ADDITIVE; intercept := None; predictors := [] |}
  /\ ~ (exists e, LinearModel_init ADDITIVE None [] = Err e).
Proof.
  split; [reflexivity|]. intros [e H]. discriminate H.
Qed.

(** ** Unknown attributes *)

(** C7.  When a predictor of the model names an attribute that is not a
    column of the table, [predict] ends in a failed assertion and returns
    no column; with the intercept present it is the assertion on the
    predictor variables that fails. *)
Theorem unknown_attribute_fails
  (lm : LinearModel) (df : DataFrame) (p : Predictor) (name : string)
  (Hin : In p (predictors lm))
  (Hname : property_name p = Some name)
  (Hmissing : has_column df name = false) :
  exists msg,
    LinearModel_predict lm df = Err (AssertionError msg)
    /\ (intercept lm <> None -> msg = msg_not_in_df).
Proof.
  unfold LinearModel_predict.
  destruct (intercept lm) as [c|].
  - assert (Hall : forallb (predictor_in_df df) (predictors lm) = false).
    { destruct (forallb (predictor_in_df df) (predictors lm)) eqn:Hf; [|reflexivity].
      rewrite forallb_forall in Hf. specialize (Hf p Hin).
      unfold predictor_in_df in Hf. rewrite Hname, Hmissing in Hf. discriminate. }
    rewrite Hall. exists msg_not_in_df. split; [reflexivity | intros _; reflexivity].
  - exists msg_no_intercept. split; [reflexivity | intros H; contradiction].
Qed.



Lemma unknown_attribute_fails_witness :
  LinearModel_predict
    {| lm_type := ADDITIVE; intercept := Some (1 # 10); predictors := [sex_predictor] |}
    ages_only
  = Err (AssertionError msg_not_in_df).
Proof.
  destruct (unknown_attribute_fails
              {| lm_type := ADDITIVE; intercept := Some (1 # 10);
                 predictors := [sex_predictor] |}
              ages_only sex_predictor "sex")
    as [msg [Hfail Hmsg]].
  - simpl. left. reflexivity.
  - reflexivity.
  - reflexivity.
  - rewrite Hfail, Hmsg; [reflexivity | discriminate].
Defined.

(** ** Rows on which every predictor is silent *)


Lemma set_column_silent (i : nat) (oid : nat) (col : series) (fr : frame) :
  nth i col None = None ->
  Forall (silent_at i) fr ->
  Forall (silent_at i) (set_column (LPredictor oid) col fr).
Proof.
  intros Hcol. induction 1 as [|[k c] fr Hk Hfr IH]; simpl.
  - constructor; [|constructor]. split; [discriminate | exact Hcol].
  - destruct (label_eqb k (LPredictor oid)).
    + constructor; [|exact Hfr]. split; [discriminate | exact Hcol].
    + constructor; [exact Hk | exact IH].
Qed.

Lemma present_silent (i : nat) (fr : frame) :
  Forall (silent_at i) fr -> present (row_entries fr i) = [].
Proof.
  induction 1 as [|[k c] fr [_ Hk] Hfr IH]; simpl; [reflexivity|].
  simpl in Hk. rewrite Hk. exact IH.
Qed.

Lemma predict_columns_silent (df : DataFrame) (i : nat) (ic : series) (ps : list Predictor) :
  (forall p, In p ps ->
     exists col, Predictor_predict p df = Ok col /\ nth i col None = None) ->
  forall rest : frame,
    Forall (silent_at i) rest ->
    exists rest',
      predict_columns df ps ((LIntercept, ic) :: rest) = Ok ((LIntercept, ic) :: rest')
      /\ Forall (silent_at i) rest'.
Proof.
  induction ps as [|p ps IH]; intros Hps rest Hrest; cbn [predict_columns].
  - exists rest. split; [reflexivity | exact Hrest].
  - destruct (Hps p (or_introl eq_refl)) as [col [Hcol Hnone]].
    rewrite Hcol. cbn [bind set_column label_eqb].
    apply (IH (fun q Hq => Hps q (or_intror Hq)) _
              (set_column_silent i (object_id p) col rest Hnone Hrest)).
Qed.

(** C3.  Take a model with an intercept [c] whose named predictors all
    find their column, and a row in which every predictor has no value.
    Then [predict] returns a column, and its entry for that row is the
    intercept itself under [ADDITIVE] (the missing entries add nothing)
    and under [MULTIPLICATIVE] (they multiply by nothing), and the
    logistic transform of the intercept under [LOGISTIC]. *)
Theorem missing_as_identity
  (lm : LinearModel) (df : DataFrame) (c : Q) (i : nat)
  (Hc : intercept lm = Some c)
  (Hcols : forallb (predictor_in_df df) (predictors lm) = true)
  (Hi : (i < nrows df)%nat)
  (Hsilent : forall p, In p (predictors lm) ->
     exists col, Predictor_predict p df = Ok col /\ nth i col None = None) :
  exists out,
    LinearModel_predict lm df = Ok out
    /\ nth_error out i
       = Some match lm_type lm with
              | ADDITIVE => c
              | MULTIPLICATIVE => c
              | LOGISTIC => (c / (1 + c))%Q
              end.
Proof.
  unfold LinearModel_predict. rewrite Hc, Hcols.
  unfold intercept_frame; cbn [set_column].
  destruct (predict_columns_silent df i (repeat (Some c) (nrows df))
              (predictors lm) Hsilent [] (Forall_nil _))
    as [rest [-> Hrest]].
  cbn [bind]. eexists. split; [reflexivity|].
  rewrite nth_error_map, nth_error_seq.
  destruct (Nat.ltb_spec i (nrows df)) as [_|Hge]; [|lia].
  cbn [option_map Nat.add]. f_equal.
  match goal with
  | |- combine_row _ ?fr _ = _ => assert (Hpresent : present (row_entries fr i) = [c])
  end.
  { unfold row_entries; cbn [map snd]. rewrite nth_repeat_lt by exact Hi.
    cbn [present]. fold (row_entries rest i). rewrite (present_silent i rest Hrest). reflexivity. }
  destruct (lm_type lm); cbn [combine_row]; unfold logistic, row_sum, row_prod;
    rewrite Hpresent; cbn [fold_left];
    rewrite ?Qmult_one_left, ?Qplus_zero_left; reflexivity.
Qed.

Lemma missing_as_identity_witness :
  exists out,
    LinearModel_predict additive_sex_model sexes = Ok out
    /\ nth_error out 1 = Some (1 # 10)%Q.
Proof.
  apply (missing_as_identity additive_sex_model sexes (1 # 10)%Q 1%nat).
  - reflexivity.
  - vm_compute. reflexivity.
  - vm_compute. lia.
  - intros p [<- | []]. exists [Some (3 # 2)%Q; None]. split; vm_compute; reflexivity.
Defined.

(** ** Models without predictors *)

(** C4.  A logistic model without predictors: the product over a row is
    the intercept [c] alone, and every row of every table gets
    [c / (1 + c)]. *)
Theorem logistic_without_predictors (c : Q) (df : DataFrame) :
  (forall i, (i < nrows df)%nat ->
     row_prod (intercept_frame c (nrows df)) i = c)
  /\ (lm <- LinearModel_init LOGISTIC (Some c) [] ;; LinearModel_predict lm df)
     = Ok (repeat (c / (1 + c))%Q (nrows df)).
Proof.
  assert (Hrow : forall i, (i < nrows df)%nat ->
            row_prod (intercept_frame c (nrows df)) i = c).
  { intros i Hi. unfold row_prod, row_entries; simpl.
    rewrite nth_repeat_lt by exact Hi. simpl. apply Qmult_one_left. }
  split; [exact Hrow|].
  unfold LinearModel_init, LinearModel_predict.
  cbn [bind intercept predictors lm_type forallb predict_columns]. f_equal.
  apply map_constant_on_seq. intros i Hi.
  cbn [combine_row]. unfold logistic. rewrite Hrow by exact Hi. reflexivity.
Qed.

End LinearModelChecks.

(* ================================================================== *)
(** * The condition texts that [_coeff] stores *)
(* ================================================================== *)

Module ConditionTexts.

Import Text Pandas Lm Examples.
Open Scope string_scope.

(** Two texts with the same parse give the same mask. *)
Lemma df_eval_same_parse (df : DataFrame) (touched : list bool) (t1 t2 : string) :
  parse_text t1 = parse_text t2 ->
  df_eval df touched t1 = df_eval df touched t2.
Proof.
  intros H. unfold df_eval. rewrite H. reflexivity.
Qed.

(** Replacing the text of the last rule by one with the same parse does not
    change the prediction. *)
Lemma predict_rules_last_same_parse
  (df : DataFrame) (c1 c2 : condition_arg) (t1 t2 : string) (x : Q) :
  condition_text c1 = Ok t1 ->
  condition_text c2 = Ok t2 ->
  parse_text t1 = parse_text t2 ->
  forall (rules : list (condition_arg * Q)) (output : series) (touched : list bool),
    predict_rules df (rules ++ [(c1, x)]) output touched
    = predict_rules df (rules ++ [(c2, x)]) output touched.
Proof.
  intros H1 H2 Hparse.
  induction rules as [|[c v] rules IH]; intros output touched.
  - cbn [app predict_rules]. rewrite H1, H2. cbn [bind].
    rewrite (df_eval_same_parse df touched t1 t2 Hparse). reflexivity.
  - cbn [app predict_rules].
    destruct (condition_text c) as [text|e]; cbn [bind]; [|reflexivity].
    destruct (df_eval df touched text) as [mask|e]; cbn [bind]; [|reflexivity].
    apply IH.
Qed.

(** ** The shorthand for equality *)


(** C5.  On a predictor of the attribute [sex], in whatever state,
    [when('M', x)] and [when('=="M"', x)] store texts that differ in blanks
    only, and the two predictors give the same output on every table. *)
Theorem equality_shorthand_equivalence
  (oid : nat) (rules : list (condition_arg * Q)) (flag : bool) (x : Q) (df : DataFrame) :
  let p := {| object_id := oid; property_name := Some "sex";
              conditions := rules; else_condition_supplied := flag |} in
  (pa <- when p (ArgStr "M") x ;; Predictor_predict pa df)
  = (pb <- when p (ArgStr raw_equals_M) x ;; Predictor_predict pb df).
Proof.
  intros p. unfold when, _coeff, p.
  cbn [property_name raw_equals_M bind].
  change (dquote ++ "M" ++ dquote) with (String dquote_char ("M" ++ dquote)).
  cbn [append bind]. unfold Predictor_predict, append_condition.
  cbn [conditions].
  apply predict_rules_last_same_parse
    with (t1 := "(sex == " ++ dquote ++ "M" ++ dquote ++ ") & (~@touched)")
         (t2 := "(sex==" ++ dquote ++ "M" ++ dquote ++ ") & (~@touched)");
    vm_compute; reflexivity.
Qed.

(** ** Numeric literals *)

(** C2, at the failing input.  [Predictor('age').when(5, v)] stores the
    text [(age == 5] without its closing parenthesis, whereas the string
    ['5'] is stored as [(age == 5)]; on every table [predict] then hands an
    unbalanced expression to [eval], which fails at the end of the text. *)
Theorem numeric_literal_condition_unbalanced (oid : nat) (v : Q) (df : DataFrame) :
  exists p p',
    when (Predictor_init oid (Some "age")) (ArgNum 5) v = Ok p
    /\ conditions p = [(ArgStr "(age == 5", v)]
    /\ Predictor_predict p df = Err (EvalError UnexpectedEOF)
    /\ when (Predictor_init oid (Some "age")) (ArgStr "5") v = Ok p'
    /\ conditions p' = [(ArgStr "(age == 5)", v)].
Proof.
  eexists. eexists.
  split; [reflexivity|]. split; [reflexivity|]. split.
  - unfold Predictor_predict, append_condition. cbn [conditions app predict_rules].
    change (condition_text (ArgStr ("(" ++ "age" ++ " == " ++ str_of_Z 5)))
      with (@Ok string "(age == 5 & (~@touched)").
    cbn [bind]. unfold df_eval.
    replace (parse_text "(age == 5 & (~@touched)") with (@Err expr (EvalError UnexpectedEOF))
      by (vm_compute; reflexivity).
    reflexivity.
  - split; reflexivity.
Qed.

(** ** Priority between rules *)


(** C1, at the failing input.  A predictor without a name keeps its
    conditions as they are written.  With the rules [('a', 1)] and
    [('a | b', 2)] the second text becomes [a | b & (~@touched)], in which
    [&] binds tighter than [|]: the row, which satisfies both conditions
    and was matched by the first rule, is matched again and ends with 2. *)
Theorem short_circuit_lost_on_top_level_or :
  exists p1 p2,
    when (Predictor_init 0 None) (ArgStr "a") 1%Q = Ok p1
    /\ when p1 (ArgStr "a | b") 2%Q = Ok p2
    /\ df_eval flags [false] "a" = Ok [true]
    /\ df_eval flags [false] "a | b" = Ok [true]
    /\ parse_text "a | b & (~@touched)"
       = Ok (EOr (EName "a") (EAnd (EName "b") (EInvert (ELocal "touched"))))
    /\ Predictor_predict p2 flags = Ok [Some 2%Q].
Proof.
  eexists. eexists.
  repeat (split; [vm_compute; reflexivity|]).
  vm_compute; reflexivity.
Qed.

(** The same two conditions on a predictor of the attribute [a]: [_coeff]
    wraps each text in parentheses and the first rule keeps the row. *)
Example short_circuit_kept_when_wrapped :
  (p1 <- when (Predictor_init 0 (Some "a")) (ArgBool true) 1%Q ;;
   p2 <- when p1 (ArgStr "| b") 2%Q ;;
   Predictor_predict p2 flags)
  = Ok [Some 1%Q].
Proof. vm_compute. reflexivity. Qed.

End ConditionTexts.

(* ================================================================== *)
(** * Splitting a table by rows *)
(* ================================================================== *)

Module RowPartition.

Import Text Pandas Lm Examples Elementwise.
Open Scope string_scope.
Open Scope list_scope.

(** ** Values over the two parts and over the whole *)

Section Glue.

(** The numbers of rows of the two parts. *)
Variables n1 n2 : nat.

Local Abbreviation glued := (Lm.glued n1 n2).
Local Abbreviation splits := (Lm.splits n1 n2).
Local Abbreviation splits_list := (Lm.splits_list n1 n2).
Local Abbreviation frames_glued := (Lm.frames_glued n1 n2).



Lemma splits_error_left (e e' : error) (x2 : result value) :
  splits (Err e) x2 (Err e').
Proof. exists e'. reflexivity. Qed.

Lemma splits_error_right (e e' : error) (x1 : result value) :
  splits x1 (Err e) (Err e').
Proof. unfold splits. destruct x1; exists e'; reflexivity. Qed.

Lemma splits_bind (a1 a2 a : result value) (k1 k2 k : value -> result value) :
  splits a1 a2 a ->
  (forall u1 u2 u, glued u1 u2 u -> splits (k1 u1) (k2 u2) (k u)) ->
  splits (bind a1 k1) (bind a2 k2) (bind a k).
Proof.
  intros Ha Hk. unfold splits in Ha.
  destruct a1 as [u1|e1]; [destruct a2 as [u2|e2]|].
  - destruct Ha as [u [-> Hu]]. cbn [bind]. apply Hk. exact Hu.
  - destruct Ha as [e ->]. cbn [bind]. apply splits_error_right.
  - destruct Ha as [e ->]. cbn [bind]. apply splits_error_left.
Qed.

Lemma glued_map_result (f : cell -> result cell) (a b : list cell) :
  length a = n1 -> length b = n2 ->
  splits (cs <- map_result f a ;; Ok (Column cs))
         (cs <- map_result f b ;; Ok (Column cs))
         (cs <- map_result f (a ++ b) ;; Ok (Column cs)).
Proof.
  intros Ha Hb. rewrite map_result_app.
  destruct (map_result f a) as [x|e] eqn:Hx; cbn [bind];
    [|apply splits_error_left].
  destruct (map_result f b) as [y|e] eqn:Hy; cbn [bind];
    [|apply splits_error_right].
  exists (Column (x ++ y)). split; [reflexivity|].
  constructor.
  - rewrite (map_result_length f a x Hx). exact Ha.
  - rewrite (map_result_length f b y Hy). exact Hb.
Qed.

Lemma glued_scalar_result (x : result cell) :
  splits (c <- x ;; Ok (Scalar c)) (c <- x ;; Ok (Scalar c)) (c <- x ;; Ok (Scalar c)).
Proof.
  destruct x as [c|e]; cbn [bind].
  - exists (Scalar c). split; [reflexivity | constructor].
  - apply splits_error_left.
Qed.

Lemma broadcast_splits (f : cell -> cell -> result cell) (u1 u2 u w1 w2 w : value) :
  glued u1 u2 u -> glued w1 w2 w ->
  splits (broadcast f u1 w1) (broadcast f u2 w2) (broadcast f u w).
Proof.
  intros Hu Hw.
  destruct Hu as [a | a1 a2 Ha1 Ha2]; destruct Hw as [b | b1 b2 Hb1 Hb2];
    cbn [broadcast].
  - apply glued_scalar_result.
  - apply glued_map_result; assumption.
  - apply (glued_map_result (fun a => f a b)); assumption.
  - rewrite zip_result_app by congruence.
    destruct (zip_result f a1 b1) as [x|e] eqn:Hx; cbn [bind];
      [|apply splits_error_left].
    destruct (zip_result f a2 b2) as [y|e] eqn:Hy; cbn [bind];
      [|apply splits_error_right].
    exists (Column (x ++ y)). split; [reflexivity|].
    constructor.
    + rewrite (zip_result_length f a1 b1 x Hx). exact Ha1.
    + rewrite (zip_result_length f a2 b2 y Hy). exact Ha2.
Qed.

Lemma broadcast_bool_splits (f : bool -> bool -> bool) (u1 u2 u w1 w2 w : value) :
  glued u1 u2 u -> glued w1 w2 w ->
  splits (broadcast_bool f u1 w1) (broadcast_bool f u2 w2) (broadcast_bool f u w).
Proof.
  intros Hu Hw.
  pose proof (broadcast_splits (bool_cells f) _ _ _ _ _ _ Hu Hw) as H.
  destruct Hu; destruct Hw; try exact H.
  unfold broadcast_bool, raise_eval. apply splits_error_left.
Qed.

Lemma invert_splits (u1 u2 u : value) :
  glued u1 u2 u ->
  splits match u1 with
         | Column cs => cs' <- map_result invert_cell cs ;; Ok (Column cs')
         | Scalar _ => raise_eval OperandType
         end
         match u2 with
         | Column cs => cs' <- map_result invert_cell cs ;; Ok (Column cs')
         | Scalar _ => raise_eval OperandType
         end
         match u with
         | Column cs => cs' <- map_result invert_cell cs ;; Ok (Column cs')
         | Scalar _ => raise_eval OperandType
         end.
Proof.
  intros [c | a b Ha Hb].
  - apply splits_error_left.
  - apply glued_map_result; assumption.
Qed.


Lemma splits_list_error_left {A : Type} (e e' : error) (x2 : result (list A)) :
  splits_list (Err e) x2 (Err e').
Proof. exists e'. reflexivity. Qed.

Lemma splits_list_error_right {A : Type} (e e' : error) (x1 : result (list A)) :
  splits_list x1 (Err e) (Err e').
Proof. unfold splits_list. destruct x1; exists e'; reflexivity. Qed.

Lemma splits_list_iff {A : Type} (x1 x2 x : result (list A)) :
  splits_list x1 x2 x ->
  forall out,
    x = Ok out <-> exists o1 o2, x1 = Ok o1 /\ x2 = Ok o2 /\ out = o1 ++ o2.
Proof.
  unfold splits_list. intros H out.
  destruct x1 as [a|e1]; [destruct x2 as [b|e2]|].
  - destruct H as (-> & _ & _). split.
    + intros [= <-]. exists a, b. repeat split.
    + intros (o1 & o2 & [= <-] & [= <-] & ->). reflexivity.
  - destruct H as [e ->]. split; [discriminate|].
    intros (o1 & o2 & _ & H & _). discriminate H.
  - destruct H as [e ->]. split; [discriminate|].
    intros (o1 & o2 & H & _). discriminate H.
Qed.

Lemma as_mask_splits (v1 v2 v : value) :
  glued v1 v2 v ->
  splits_list (as_mask n1 v1) (as_mask n2 v2) (as_mask (n1 + n2) v).
Proof.
  intros [c | a b Ha Hb]; cbn [as_mask].
  - apply splits_list_error_left.
  - rewrite length_app, Ha, Hb, !Nat.eqb_refl, map_result_app.
    destruct (map_result cell_bool a) as [x|e] eqn:Hx; cbn [bind];
      [|apply splits_list_error_left].
    destruct (map_result cell_bool b) as [y|e] eqn:Hy; cbn [bind];
      [|apply splits_list_error_right].
    split; [reflexivity|]. split.
    + rewrite (map_result_length cell_bool a x Hx). exact Ha.
    + rewrite (map_result_length cell_bool b y Hy). exact Hb.
Qed.


Lemma set_column_glued (k : label) (c1 c2 : series) (f1 f2 f : frame) :
  length c1 = n1 -> length c2 = n2 ->
  frames_glued f1 f2 f ->
  frames_glued (set_column k c1 f1) (set_column k c2 f2) (set_column k (c1 ++ c2) f).
Proof.
  intros H1 H2. induction 1 as [|k' d1 d2 g1 g2 g Hd1 Hd2 Hg IH]; cbn [set_column].
  - constructor; [assumption | assumption | constructor].
  - destruct (label_eqb k' k).
    + constructor; assumption.
    + constructor; assumption.
Qed.

Lemma row_entries_glued_left (f1 f2 f : frame) (i : nat) :
  frames_glued f1 f2 f -> (i < n1)%nat ->
  row_entries f i = row_entries f1 i.
Proof.
  intros H Hi. induction H as [|k c1 c2 g1 g2 g Hc1 Hc2 Hg IH];
    unfold row_entries in *; cbn [map snd]; [reflexivity|].
  rewrite IH. f_equal. apply app_nth1. lia.
Qed.

Lemma row_entries_glued_right (f1 f2 f : frame) (i : nat) :
  frames_glued f1 f2 f ->
  row_entries f (n1 + i) = row_entries f2 i.
Proof.
  intros H. induction H as [|k c1 c2 g1 g2 g Hc1 Hc2 Hg IH];
    unfold row_entries in *; cbn [map snd]; [reflexivity|].
  rewrite IH. f_equal. rewrite <- Hc1. apply app_nth2_plus.
Qed.

Lemma combine_row_entries (t : LinearModelType) (f g : frame) (i j : nat) :
  row_entries f i = row_entries g j ->
  combine_row t f i = combine_row t g j.
Proof.
  intros H. destruct t; cbn [combine_row]; unfold row_sum, row_prod;
    rewrite H; reflexivity.
Qed.

Lemma map_seq_shift {A : Type} (g : nat -> A) (len start : nat) :
  map g (seq (n1 + start) len) = map (fun i => g (n1 + i)%nat) (seq start len).
Proof.
  revert start; induction len as [|len IH]; intros start; cbn [seq map]; [reflexivity|].
  f_equal. rewrite <- IH. f_equal. f_equal. lia.
Qed.

Lemma combine_rows_glued (t : LinearModelType) (f1 f2 f : frame) :
  frames_glued f1 f2 f ->
  map (combine_row t f) (seq 0 (n1 + n2))
  = map (combine_row t f1) (seq 0 n1) ++ map (combine_row t f2) (seq 0 n2).
Proof.
  intros H. rewrite seq_app, map_app. f_equal.
  - apply map_ext_in. intros i Hi. apply in_seq in Hi.
    apply combine_row_entries. apply (row_entries_glued_left f1 f2 f i H). lia.
  - replace (0 + n1)%nat with (n1 + 0)%nat by lia. rewrite map_seq_shift.
    apply map_ext. intros i.
    apply combine_row_entries. apply (row_entries_glued_right f1 f2 f i H).
Qed.

End Glue.

(** ** Expressions without aggregates are evaluated row by row *)

Section Parts.

Variable cols : list string.
Variables rows1 rows2 : list (list cell).

Let part1 : DataFrame := {| columns := cols; rows := rows1 |}.
Let part2 : DataFrame := {| columns := cols; rows := rows2 |}.
Let whole : DataFrame := {| columns := cols; rows := rows1 ++ rows2 |}.
Let n1 : nat := length rows1.
Let n2 : nat := length rows2.

Lemma column_splits (s : string) :
  splits n1 n2
    match column part1 s with
    | Some cs => Ok (Column cs) | None => raise_eval (UndefinedVariable s) end
    match column part2 s with
    | Some cs => Ok (Column cs) | None => raise_eval (UndefinedVariable s) end
    match column whole s with
    | Some cs => Ok (Column cs) | None => raise_eval (UndefinedVariable s) end.
Proof.
  unfold column, part1, part2, whole; cbn [columns rows].
  destruct (index_of s cols) as [j|]; cbn [option_map].
  - exists (Column (column_values j rows1 ++ column_values j rows2)). split.
    + unfold column_values. rewrite map_app. reflexivity.
    + constructor; unfold column_values; apply length_map.
  - apply splits_error_left.
Qed.

Lemma eval_expr_splits (e : expr) (t1 t2 : list bool) :
  aggregate_free e = true ->
  length t1 = n1 -> length t2 = n2 ->
  splits n1 n2 (eval_expr part1 t1 e) (eval_expr part2 t2 e)
         (eval_expr whole (t1 ++ t2) e).
Proof.
  intros Hfree Ht1 Ht2.
  induction e as [s | z | s | b | s | op e1 IH1 e2 IH2 | e1 IH1 e2 IH2
                  | e1 IH1 e2 IH2 | e1 IH1 | f e1 IH1];
    cbn [eval_expr]; cbn [aggregate_free] in Hfree.
  - apply column_splits.
  - eexists. split; [reflexivity | constructor].
  - eexists. split; [reflexivity | constructor].
  - eexists. split; [reflexivity | constructor].
  - unfold resolve_local. destruct (String.eqb s "touched").
    + exists (Column (map CBool t1 ++ map CBool t2)). split.
      * rewrite map_app. reflexivity.
      * constructor; rewrite length_map; assumption.
    + apply splits_error_left.
  - apply andb_prop in Hfree as [H1 H2].
    apply splits_bind; [apply IH1; exact H1|]. intros u1 u2 u Hu.
    apply splits_bind; [apply IH2; exact H2|]. intros w1 w2 w Hw.
    apply broadcast_splits; assumption.
  - apply andb_prop in Hfree as [H1 H2].
    apply splits_bind; [apply IH1; exact H1|]. intros u1 u2 u Hu.
    apply splits_bind; [apply IH2; exact H2|]. intros w1 w2 w Hw.
    apply broadcast_bool_splits; assumption.
  - apply andb_prop in Hfree as [H1 H2].
    apply splits_bind; [apply IH1; exact H1|]. intros u1 u2 u Hu.
    apply splits_bind; [apply IH2; exact H2|]. intros w1 w2 w Hw.
    apply broadcast_bool_splits; assumption.
  - apply splits_bind; [apply IH1; exact Hfree|]. intros u1 u2 u Hu.
    apply invert_splits. exact Hu.
  - discriminate Hfree.
Qed.

Lemma df_eval_splits (text : string) (t1 t2 : list bool) :
  row_local_text cols text = true ->
  length t1 = n1 -> length t2 = n2 ->
  splits_list n1 n2 (df_eval part1 t1 text) (df_eval part2 t2 text)
              (df_eval whole (t1 ++ t2) text).
Proof.
  intros Hlocal Ht1 Ht2. unfold df_eval, row_local_text in *.
  destruct (parse_text text) as [e|err]; cbn [bind];
    [|apply splits_list_error_left].
  apply andb_prop in Hlocal as [Hfree _].
  pose proof (eval_expr_splits e t1 t2 Hfree Ht1 Ht2) as He.
  unfold splits in He.
  replace (nrows whole) with (n1 + n2)%nat
    by (unfold nrows, whole, n1, n2; cbn [rows]; rewrite length_app; reflexivity).
  change (nrows part1) with n1. change (nrows part2) with n2.
  destruct (eval_expr part1 t1 e) as [v1|e1]; [destruct (eval_expr part2 t2 e) as [v2|e2]|].
  - destruct He as [v [-> Hv]]. cbn [bind]. apply as_mask_splits. exact Hv.
  - destruct He as [e' ->]. cbn [bind]. apply splits_list_error_right.
  - destruct He as [e' ->]. cbn [bind]. exists e'. reflexivity.
Qed.

Lemma predict_rules_splits (rules : list (condition_arg * Q)) :
  forallb (row_local_rule cols) rules = true ->
  forall (o1 o2 : series) (t1 t2 : list bool),
    length o1 = n1 -> length o2 = n2 -> length t1 = n1 -> length t2 = n2 ->
    splits_list n1 n2 (predict_rules part1 rules o1 t1) (predict_rules part2 rules o2 t2)
                (predict_rules whole rules (o1 ++ o2) (t1 ++ t2)).
Proof.
  induction rules as [|[c v] rules IH]; intros Hlocal o1 o2 t1 t2 Ho1 Ho2 Ht1 Ht2;
    cbn [predict_rules].
  - repeat split; assumption.
  - cbn [forallb] in Hlocal. apply andb_prop in Hlocal as [Hrule Hrules].
    unfold row_local_rule in Hrule; cbn [fst] in Hrule.
    destruct (condition_text c) as [text|err]; cbn [bind];
      [|apply splits_list_error_left].
    pose proof (df_eval_splits text t1 t2 Hrule Ht1 Ht2) as Hm.
    unfold splits_list in Hm.
    destruct (df_eval part1 t1 text) as [m1|e1];
      [destruct (df_eval part2 t2 text) as [m2|e2]|].
    + destruct Hm as (-> & Hm1 & Hm2). cbn [bind].
      unfold assign, touch.
      rewrite !zip_with_app by congruence.
      apply (IH Hrules); rewrite zip_with_length; congruence.
    + destruct Hm as [e' ->]. cbn [bind]. apply splits_list_error_right.
    + destruct Hm as [e' ->]. cbn [bind]. exists e'. reflexivity.
Qed.

Lemma Predictor_predict_splits (p : Predictor) :
  row_local cols p = true ->
  splits_list n1 n2 (Predictor_predict p part1) (Predictor_predict p part2)
              (Predictor_predict p whole).
Proof.
  intros Hlocal. unfold Predictor_predict.
  replace (nrows whole) with (n1 + n2)%nat
    by (unfold nrows, whole, n1, n2; cbn [rows]; rewrite length_app; reflexivity).
  change (nrows part1) with n1. change (nrows part2) with n2.
  rewrite !repeat_app.
  apply predict_rules_splits; [exact Hlocal | | | |]; apply repeat_length.
Qed.

Lemma predict_columns_splits (ps : list Predictor) :
  forallb (row_local cols) ps = true ->
  forall fr1 fr2 fr : frame,
    frames_glued n1 n2 fr1 fr2 fr ->
    match predict_columns part1 ps fr1, predict_columns part2 ps fr2 with
    | Ok a, Ok b =>
        exists f, predict_columns whole ps fr = Ok f /\ frames_glued n1 n2 a b f
    | _, _ => exists e, predict_columns whole ps fr = Err e
    end.
Proof.
  induction ps as [|p ps IH]; intros Hlocal fr1 fr2 fr Hfr; cbn [predict_columns].
  - exists fr. split; [reflexivity | exact Hfr].
  - cbn [forallb] in Hlocal. apply andb_prop in Hlocal as [Hp Hps].
    pose proof (Predictor_predict_splits p Hp) as Hcol. unfold splits_list in Hcol.
    destruct (Predictor_predict p part1) as [c1|e1];
      [destruct (Predictor_predict p part2) as [c2|e2]|].
    + destruct Hcol as (-> & Hc1 & Hc2). cbn [bind].
      apply (IH Hps). apply set_column_glued; assumption.
    + destruct Hcol as [e' ->]. cbn [bind].
      destruct (predict_columns part1 ps _); exists e'; reflexivity.
    + destruct Hcol as [e' ->]. cbn [bind]. exists e'. reflexivity.
Qed.

Lemma LinearModel_predict_splits (lm : LinearModel) :
  forallb (row_local cols) (predictors lm) = true ->
  splits_list n1 n2 (LinearModel_predict lm part1) (LinearModel_predict lm part2)
              (LinearModel_predict lm whole).
Proof.
  intros Hlocal. unfold LinearModel_predict.
  destruct (intercept lm) as [c|]; [|apply splits_list_error_left].
  replace (forallb (predictor_in_df part1) (predictors lm))
    with (forallb (predictor_in_df whole) (predictors lm)) by reflexivity.
  replace (forallb (predictor_in_df part2) (predictors lm))
    with (forallb (predictor_in_df whole) (predictors lm)) by reflexivity.
  destruct (forallb (predictor_in_df whole) (predictors lm));
    [|apply splits_list_error_left].
  replace (nrows whole) with (n1 + n2)%nat
    by (unfold nrows, whole, n1, n2; cbn [rows]; rewrite length_app; reflexivity).
  change (nrows part1) with n1. change (nrows part2) with n2.
  unfold intercept_frame. rewrite repeat_app.
  assert (Hstart : frames_glued n1 n2
                     (set_column LIntercept (repeat (Some c) n1) [])
                     (set_column LIntercept (repeat (Some c) n2) [])
                     (set_column LIntercept (repeat (Some c) n1 ++ repeat (Some c) n2) [])).
  { apply set_column_glued; [apply repeat_length | apply repeat_length | constructor]. }
  pose proof (predict_columns_splits (predictors lm) Hlocal _ _ _ Hstart) as Hcols.
  destruct (predict_columns part1 (predictors lm) _) as [a|e1];
    [destruct (predict_columns part2 (predictors lm) _) as [b|e2]|].
  - destruct Hcols as [f [-> Hf]]. cbn [bind].
    split; [|split; rewrite length_map, length_seq; reflexivity].
    f_equal. apply combine_rows_glued. exact Hf.
  - destruct Hcols as [e' ->]. cbn [bind]. apply splits_list_error_right.
  - destruct Hcols as [e' ->]. cbn [bind]. exists e'. reflexivity.
Qed.

End Parts.

(** ** The statements *)

(** From two blocks to any number of them. *)
Lemma blocks_from_two {A : Type} (f : list (list cell) -> result (list A)) :
  (forall r1 r2 out,
     f (r1 ++ r2) = Ok out
     <-> exists o1 o2, f r1 = Ok o1 /\ f r2 = Ok o2 /\ out = o1 ++ o2) ->
  forall (blocks : list (list (list cell))) (block : list (list cell)) (out : list A),
    f (concat (block :: blocks)) = Ok out
    <-> exists outs,
          Forall2 (fun b o => f b = Ok o) (block :: blocks) outs
          /\ out = concat outs.
Proof.
  intros Htwo. induction blocks as [|block' blocks IH]; intros block out.
  - cbn [concat]. rewrite app_nil_r. split.
    + intros H. exists [out]. split; [repeat constructor; exact H|].
      cbn [concat]. rewrite app_nil_r. reflexivity.
    + intros (outs & HF & ->).
      inversion HF as [|b o bs os Hb Hnil]; subst. inversion Hnil; subst.
      cbn [concat]. rewrite app_nil_r. exact Hb.
  - change (concat (block :: block' :: blocks))
      with (block ++ concat (block' :: blocks)).
    rewrite Htwo. split.
    + intros (o1 & o2 & H1 & H2 & ->). apply IH in H2 as (outs & HF & ->).
      exists (o1 :: outs). split; [constructor; assumption | reflexivity].
    + intros (outs & HF & ->).
      inversion HF as [|b o bs os Hb Hrest]; subst.
      exists o, (concat os). split; [exact Hb|]. split; [|reflexivity].
      apply IH. exists os. split; [exact Hrest | reflexivity].
Qed.




End RowPartition.

(* ================================================================== *)
(** * Rules that are guarded by the test on [touched] *)
(* ================================================================== *)

Module ShortCircuit.

Import Text Pandas Lm Examples Elementwise.
Open Scope string_scope.
Open Scope list_scope.

Lemma spares_nth (touched mask : list bool) (i : nat) :
  spares touched mask ->
  nth i touched false = true -> nth i mask false = false.
Proof.
  intros H. revert i. induction H as [|t m touched mask Htm _ IH]; intros i Hi.
  - destruct i; reflexivity.
  - destruct i as [|i]; cbn [nth] in *; [apply Htm; exact Hi | apply IH; exact Hi].
Qed.

Lemma invert_touched (touched : list bool) :
  map_result invert_cell (map CBool touched) = Ok (map CBool (map negb touched)).
Proof.
  induction touched as [|t touched IH]; cbn [map map_result invert_cell bind];
    [reflexivity|].
  rewrite IH. reflexivity.
Qed.

Lemma mask_of_inverted (touched mask : list bool) :
  map_result cell_bool (map CBool (map negb touched)) = Ok mask ->
  spares touched mask.
Proof.
  revert mask; induction touched as [|t touched IH]; intros mask H;
    cbn [map map_result cell_bool bind] in H.
  - injection H as <-. constructor.
  - destruct (map_result cell_bool (map CBool (map negb touched))) as [m|e];
      cbn [bind] in H; [|discriminate].
    injection H as <-. constructor; [|apply IH; reflexivity].
    intros ->. reflexivity.
Qed.

Lemma mask_of_scalar_and (a : cell) (touched : list bool) (r : list cell) (mask : list bool) :
  map_result (bool_cells andb a) (map CBool (map negb touched)) = Ok r ->
  map_result cell_bool r = Ok mask ->
  spares touched mask.
Proof.
  revert r mask; induction touched as [|t touched IH]; intros r mask Hr Hm;
    cbn [map map_result bind] in Hr.
  - injection Hr as <-. cbn [map_result] in Hm. injection Hm as <-. constructor.
  - destruct (bool_cells andb a (CBool (negb t))) as [c|e] eqn:Hc;
      cbn [bind] in Hr; [|discriminate].
    destruct (map_result (bool_cells andb a) (map CBool (map negb touched)))
      as [r'|e] eqn:Hr'; cbn [bind] in Hr; [|discriminate].
    injection Hr as <-. cbn [map_result bind] in Hm.
    destruct (cell_bool c) as [m|e] eqn:Hcm; cbn [bind] in Hm; [|discriminate].
    destruct (map_result cell_bool r') as [mask'|e] eqn:Hm'; cbn [bind] in Hm;
      [|discriminate].
    injection Hm as <-. constructor; [|apply (IH r' mask' eq_refl Hm')].
    intros ->. destruct a as [s|z|x|]; cbn [bool_cells negb] in Hc; try discriminate Hc.
    injection Hc as <-. rewrite andb_false_r in Hcm. injection Hcm as <-. reflexivity.
Qed.

Lemma mask_of_column_and (cs : list cell) (touched : list bool) (r : list cell)
      (mask : list bool) :
  zip_result (bool_cells andb) cs (map CBool (map negb touched)) = Ok r ->
  map_result cell_bool r = Ok mask ->
  spares touched mask.
Proof.
  revert cs r mask; induction touched as [|t touched IH]; intros cs r mask Hr Hm;
    destruct cs as [|a cs]; cbn [map zip_result bind] in Hr; try discriminate Hr.
  - injection Hr as <-. cbn [map_result] in Hm. injection Hm as <-. constructor.
  - destruct (bool_cells andb a (CBool (negb t))) as [c|e] eqn:Hc;
      cbn [bind] in Hr; [|discriminate].
    destruct (zip_result (bool_cells andb) cs (map CBool (map negb touched)))
      as [r'|e] eqn:Hr'; cbn [bind] in Hr; [|discriminate].
    injection Hr as <-. cbn [map_result bind] in Hm.
    destruct (cell_bool c) as [m|e] eqn:Hcm; cbn [bind] in Hm; [|discriminate].
    destruct (map_result cell_bool r') as [mask'|e] eqn:Hm'; cbn [bind] in Hm;
      [|discriminate].
    injection Hm as <-. constructor; [|apply (IH cs r' mask' Hr' Hm')].
    intros ->. destruct a as [s|z|x|]; cbn [bool_cells negb] in Hc; try discriminate Hc.
    injection Hc as <-. rewrite andb_false_r in Hcm. injection Hcm as <-. reflexivity.
Qed.

(** The mask of a guarded expression spares the touched rows. *)
Lemma guarded_mask_spares (df : DataFrame) (touched : list bool) (e : expr)
      (v : value) (n : nat) (mask : list bool) :
  guarded_expr e = true ->
  eval_expr df touched e = Ok v ->
  as_mask n v = Ok mask ->
  spares touched mask.
Proof.
  intros Hg Hv Hm.
  assert (Htouched : forall s, String.eqb s "touched" = true ->
            eval_expr df touched (EInvert (ELocal s))
            = Ok (Column (map CBool (map negb touched)))).
  { intros s Hs. cbn [eval_expr]. unfold resolve_local. rewrite Hs. cbn [bind].
    rewrite invert_touched. reflexivity. }
  destruct e as [ | | | | | | e1 e2 | | e1 | ]; try discriminate Hg.
  - (* e1 and (not touched) *)
    destruct e2 as [ | | | | | | | | e2 | ]; try discriminate Hg.
    destruct e2 as [ | | | |s| | | | | ]; try discriminate Hg.
    cbn [guarded_expr] in Hg.
    change (eval_expr df touched (EAnd e1 (EInvert (ELocal s))))
      with (v1 <- eval_expr df touched e1 ;;
            v2 <- eval_expr df touched (EInvert (ELocal s)) ;;
            broadcast_bool andb v1 v2) in Hv.
    rewrite (Htouched s Hg) in Hv.
    destruct (eval_expr df touched e1) as [[a|cs]|err]; cbn [bind] in Hv;
      [| |discriminate].
    + cbn [broadcast_bool broadcast] in Hv.
      destruct (map_result (bool_cells andb a) (map CBool (map negb touched)))
        as [r|err] eqn:Hr; cbn [bind] in Hv; [|discriminate].
      injection Hv as <-. cbn [as_mask] in Hm.
      destruct (length r =? n)%nat; [|discriminate].
      apply (mask_of_scalar_and a touched r mask Hr Hm).
    + cbn [broadcast_bool broadcast] in Hv.
      destruct (zip_result (bool_cells andb) cs (map CBool (map negb touched)))
        as [r|err] eqn:Hr; cbn [bind] in Hv; [|discriminate].
      injection Hv as <-. cbn [as_mask] in Hm.
      destruct (length r =? n)%nat; [|discriminate].
      apply (mask_of_column_and cs touched r mask Hr Hm).
  - (* not touched *)
    destruct e1 as [ | | | |s| | | | | ]; try discriminate Hg.
    cbn [guarded_expr] in Hg. rewrite (Htouched s Hg) in Hv.
    injection Hv as <-. cbn [as_mask] in Hm.
    destruct (length (map CBool (map negb touched)) =? n)%nat; [|discriminate].
    apply mask_of_inverted. exact Hm.
Qed.

Lemma df_eval_length (df : DataFrame) (touched : list bool) (text : string)
      (mask : list bool) :
  df_eval df touched text = Ok mask -> length mask = nrows df.
Proof.
  unfold df_eval. intros H.
  destruct (parse_text text) as [e|err]; cbn [bind] in H; [|discriminate].
  destruct (eval_expr df touched e) as [[c|cs]|err]; cbn [bind as_mask] in H;
    try discriminate.
  destruct (Nat.eqb_spec (length cs) (nrows df)) as [Hlen|]; [|discriminate].
  rewrite <- Hlen. apply (map_result_length cell_bool cs mask H).
Qed.

(** Guarded rules never reassign a row that is already touched. *)
Theorem guarded_rules_keep_touched_rows
  (df : DataFrame) (rules : list (condition_arg * Q)) :
  forallb guarded_rule rules = true ->
  forall (output : series) (touched : list bool) (out : series),
    length output = nrows df -> length touched = nrows df ->
    predict_rules df rules output touched = Ok out ->
    forall i, nth i touched false = true -> nth i out None = nth i output None.
Proof.
  induction rules as [|[c v] rules IH]; intros Hg output touched out Ho Ht Hrun i Hi;
    cbn [predict_rules] in Hrun.
  - injection Hrun as <-. reflexivity.
  - cbn [forallb] in Hg. apply andb_prop in Hg as [Hrule Hrules].
    unfold guarded_rule in Hrule; cbn [fst] in Hrule.
    destruct (condition_text c) as [text|err]; cbn [bind] in Hrun; [|discriminate].
    destruct (df_eval df touched text) as [mask|err] eqn:Hmask; cbn [bind] in Hrun;
      [|discriminate].
    pose proof (df_eval_length df touched text mask Hmask) as Hlen.
    assert (Hspare : spares touched mask).
    { unfold df_eval in Hmask.
      destruct (parse_text text) as [e|err]; cbn [bind] in Hmask; [|discriminate].
      destruct (eval_expr df touched e) as [w|err] eqn:Hw; cbn [bind] in Hmask;
        [|discriminate].
      apply (guarded_mask_spares df touched e w (nrows df) mask Hrule Hw Hmask). }
    pose proof (spares_nth touched mask i Hspare Hi) as Hmi.
    rewrite (IH Hrules (assign output mask v) (touch touched mask) out).
    + unfold assign.
      rewrite (nth_zip_with (fun o (m : bool) => if m then Some v else o) None false)
        by congruence.
      rewrite Hmi. reflexivity.
    + unfold assign. rewrite zip_with_length; congruence.
    + unfold touch. rewrite zip_with_length; congruence.
    + exact Hrun.
    + unfold touch. rewrite (nth_zip_with orb false false) by congruence.
      rewrite Hi. reflexivity.
Qed.

(** Short-circuit priority where it holds: when the rules after the first
    are guarded, a row that the first rule matches ends with the value of
    the first rule. *)
Theorem first_rule_wins_over_guarded_rules
  (df : DataFrame) (c1 : condition_arg) (v1 : Q) (rules : list (condition_arg * Q))
  (text1 : string) (mask1 : list bool) (out : series) (i : nat) :
  forallb guarded_rule rules = true ->
  condition_text c1 = Ok text1 ->
  df_eval df (repeat false (nrows df)) text1 = Ok mask1 ->
  nth i mask1 false = true ->
  predict_rules df ((c1, v1) :: rules)
                (repeat None (nrows df)) (repeat false (nrows df)) = Ok out ->
  nth i out None = Some v1.
Proof.
  intros Hg Htext Hmask Hi Hrun. cbn [predict_rules] in Hrun.
  rewrite Htext in Hrun. cbn [bind] in Hrun. rewrite Hmask in Hrun. cbn [bind] in Hrun.
  pose proof (df_eval_length df _ text1 mask1 Hmask) as Hlen.
  rewrite (guarded_rules_keep_touched_rows df rules Hg _ _ out) with (3 := Hrun).
  - unfold assign.
    rewrite (nth_zip_with (fun o (m : bool) => if m then Some v1 else o) None false)
      by (rewrite repeat_length; congruence).
    rewrite Hi. reflexivity.
  - unfold assign. rewrite zip_with_length; rewrite repeat_length; congruence.
  - unfold touch. rewrite zip_with_length; rewrite repeat_length; congruence.
  - unfold touch. rewrite (nth_zip_with orb false false)
      by (rewrite repeat_length; congruence).
    rewrite Hi. apply orb_true_r.
Qed.

(** The rules that [_coeff] stores for a named predictor are guarded: here
    the two of [short_circuit_kept_when_wrapped]. *)
Example wrapped_rules_are_guarded :
  forallb guarded_rule [(ArgStr "(a == True)", 1%Q); (ArgStr "(a| b)", 2%Q)] = true.
Proof. vm_compute. reflexivity. Qed.

(** The second rule of the failing input of C1 is not. *)
Example top_level_or_is_not_guarded :
  guarded_rule (ArgStr "a | b", 2%Q) = false.
Proof. vm_compute. reflexivity. Qed.

End ShortCircuit.

(* ================================================================== *)
(** * The scenarios of the specification *)
(* ================================================================== *)

Module Scenarios.

Import Text Pandas Lm Examples.
Open Scope string_scope.

Example additive_scenario :
  sex_model_output ADDITIVE (1 # 10) four_sexes
  = Ok [8 # 5; 11 # 10; 8 # 5; 11 # 10]%Q.
Proof. vm_compute. reflexivity. Qed.

Example logistic_scenario :
  sex_model_output LOGISTIC 1 four_sexes
  = Ok [3 # 5; 1 # 2; 3 # 5; 1 # 2]%Q.
Proof. vm_compute. reflexivity. Qed.

Example multiplicative_scenario :
  (p <- when (Predictor_init 0 (Some "age")) (ArgStr "<5") 2 ;;
   p <- when p (ArgStr ">=5") (1 # 2) ;;
   lm <- LinearModel_init MULTIPLICATIVE (Some 1%Q) [p] ;;
   LinearModel_predict lm (ages [[CInt 3]; [CInt 10]]))
  = Ok [2; 1 # 2]%Q.
Proof. vm_compute. reflexivity. Qed.

Example default_only_predictor :
  (p <- otherwise (Predictor_init 0 (Some "sex")) (7 # 3) ;;
   Predictor_predict p four_sexes)
  = Ok (repeat (Some (7 # 3)%Q) 4).
Proof. vm_compute. reflexivity. Qed.

(** The same predictor given twice is one column of the frame. *)
Example repeated_predictor_counts_once :
  LinearModel_predict
    {| lm_type := ADDITIVE; intercept := Some 0%Q;
       predictors := [sex_predictor; sex_predictor] |}
    sexes
  = Ok [3 # 2; 0]%Q.
Proof. vm_compute. reflexivity. Qed.

End Scenarios.

(* ================================================================== *)
(** * Chains of [when] and [otherwise] *)
(* ================================================================== *)

Module ConstructionChains.

Import Text Pandas Lm Examples Usage.
Open Scope string_scope.
Open Scope list_scope.

(** One call of [_coeff] adds one rule at the end, with the coefficient it
    was given, and leaves the object and its name alone. *)
Lemma _coeff_appends (p p' : Predictor) (c : condition_arg) (v : Q) :
  _coeff p c v = Ok p' ->
  object_id p' = object_id p
  /\ property_name p' = property_name p
  /\ exists c', conditions p' = conditions p ++ [(c', v)].
Proof.
  unfold _coeff. intros H.
  destruct (property_name p) as [name|] eqn:Hname.
  - destruct c as [s|b|n| |t].
    + destruct s as [|c0 s']; [discriminate|]. injection H as <-.
      cbn. rewrite Hname. repeat split. eexists. reflexivity.
    + destruct b; injection H as <-; cbn; rewrite Hname; repeat split;
        eexists; reflexivity.
    + injection H as <-. cbn. rewrite Hname. repeat split. eexists. reflexivity.
    + destruct (else_condition_supplied p); [discriminate|]. injection H as <-.
      cbn. rewrite Hname. repeat split. eexists. reflexivity.
    + discriminate.
  - injection H as <-. cbn. rewrite Hname. repeat split. eexists. reflexivity.
Qed.

Lemma apply_call_appends (p p' : Predictor) (k : call) :
  apply_call p k = Ok p' ->
  object_id p' = object_id p
  /\ property_name p' = property_name p
  /\ exists c', conditions p' = conditions p ++ [(c', call_value k)].
Proof.
  destruct k as [c v|v]; cbn [apply_call call_value].
  - apply _coeff_appends.
  - unfold otherwise. intros H.
    destruct (property_name p) as [name|] eqn:Hname; [|discriminate].
    rewrite <- Hname. apply (_coeff_appends p p' ArgNone v H).
Qed.

(** X1.  A chain of [when] and [otherwise] calls that succeeds keeps the
    object and its name, leaves the rules that were there untouched and
    adds exactly one rule per call, in call order and with the
    coefficients as given. *)
Theorem chain_adds_one_rule_per_call
  (p0 p : Predictor) (ks : list call)
  (Hrun : apply_calls p0 ks = Ok p) :
  object_id p = object_id p0
  /\ property_name p = property_name p0
  /\ exists added,
       conditions p = conditions p0 ++ added
       /\ map snd added = map call_value ks.
Proof.
  revert p0 Hrun. induction ks as [|k ks IH]; intros p0 Hrun; cbn [apply_calls] in Hrun.
  - injection Hrun as <-. repeat split. exists []. split; [|reflexivity].
    rewrite app_nil_r. reflexivity.
  - destruct (apply_call p0 k) as [p1|e] eqn:Hk; cbn [bind] in Hrun; [|discriminate].
    destruct (apply_call_appends p0 p1 k Hk) as (Hid & Hname & c' & Hc).
    destruct (IH p1 Hrun) as (Hid' & Hname' & added & Hadded & Hvalues).
    split; [congruence|]. split; [congruence|].
    exists ((c', call_value k) :: added). split.
    + rewrite Hadded, Hc, <- app_assoc. reflexivity.
    + cbn [map snd]. rewrite Hvalues. reflexivity.
Qed.

Lemma chain_adds_one_rule_per_call_witness :
  map snd (conditions
             {| object_id := 0; property_name := Some "sex"%string;
                conditions := [(ArgStr ("(sex == " ++ dquote ++ "M" ++ dquote ++ ")")%string,
                                3 # 2); (ArgStr ""%string, 1)];
                else_condition_supplied := true |})
  = [3 # 2; 1]%Q.
Proof.
  destruct (chain_adds_one_rule_per_call
              (Predictor_init 0 (Some "sex"%string))
              {| object_id := 0; property_name := Some "sex"%string;
                 conditions := [(ArgStr ("(sex == " ++ dquote ++ "M" ++ dquote ++ ")")%string,
                                 3 # 2); (ArgStr ""%string, 1)];
                 else_condition_supplied := true |}
              [CallWhen (ArgStr "M"%string) (3 # 2); CallOtherwise 1])
    as (_ & _ & added & Hadded & Hvalues).
  - reflexivity.
  - rewrite Hadded. cbn [Predictor_init conditions app]. exact Hvalues.
Defined.

(** X2.  The ways in which [when] fails.  On a predictor without a name it
    never does.  On a named one it fails exactly for the empty string, for
    [None] once an unconditioned rule has been given, and for a condition
    that is neither a string, a boolean, a number nor [None]. *)
Theorem when_fails_exactly (p : Predictor) (c : condition_arg) (v : Q) :
  is_ok (when p c v) = false
  <-> property_name p <> None
      /\ (c = ArgStr ""%string
          \/ (c = ArgNone /\ else_condition_supplied p = true)
          \/ exists t, c = ArgOther t).
Proof.
  unfold when, _coeff.
  destruct (property_name p) as [name|] eqn:Hname.
  - destruct c as [s|b|n| |t].
    + destruct s as [|c0 s']; cbn [is_ok]; split.
      * intros _. split; [discriminate | left; reflexivity].
      * reflexivity.
      * discriminate.
      * intros [_ [H | [[H _] | [t H]]]]; discriminate H.
    + destruct b; cbn [is_ok]; (split; [discriminate|]);
        intros [_ [H | [[H _] | [t H]]]]; discriminate H.
    + cbn [is_ok]. split; [discriminate|].
      intros [_ [H | [[H _] | [t H]]]]; discriminate H.
    + destruct (else_condition_supplied p); cbn [is_ok]; split.
      * intros _. split; [discriminate | right; left; split; reflexivity].
      * reflexivity.
      * discriminate.
      * intros [_ [H | [[_ H] | [t H]]]]; discriminate H.
    + cbn [is_ok]. split; [|reflexivity].
      intros _. split; [discriminate | right; right; exists t; reflexivity].
  - cbn [is_ok]. split; [discriminate|]. intros [H _]. contradiction.
Qed.

Lemma _coeff_stores_text (p p' : Predictor) (c : condition_arg) (v : Q) :
  property_name p <> None ->
  Forall stored_text (conditions p) ->
  _coeff p c v = Ok p' ->
  Forall stored_text (conditions p').
Proof.
  intros Hn Hall H. unfold _coeff in H.
  destruct (property_name p) as [name|]; [|contradiction].
  assert (Hadd : forall s q, (s = ""%string \/ exists s', s = String "("%char s') ->
            Forall stored_text (conditions (append_condition q (ArgStr s) v)) <->
            Forall stored_text (conditions q)).
  { intros s q Hs. cbn [append_condition conditions]. rewrite Forall_app. split.
    - intros [Hq _]. exact Hq.
    - intros Hq. split; [exact Hq|]. constructor; [|constructor].
      exists s. split; [reflexivity | exact Hs]. }
  destruct c as [s|b|n| |t].
  - destruct s as [|c0 s']; [discriminate|]. injection H as <-.
    apply Hadd; [|exact Hall]. right. unfold parse_str_condition.
    destruct (starts_expression c0); [|destruct (isnumeric (String c0 s'))];
      eexists; reflexivity.
  - destruct b; injection H as <-; (apply Hadd; [|exact Hall]); right;
      eexists; reflexivity.
  - injection H as <-. apply Hadd; [|exact Hall]. right. eexists. reflexivity.
  - destruct (else_condition_supplied p); [discriminate|]. injection H as <-.
    apply Hadd; [left; reflexivity | exact Hall].
  - discriminate.
Qed.

Lemma built_named_stores_texts (p : Predictor) :
  built p -> property_name p <> None -> Forall stored_text (conditions p).
Proof.
  induction 1 as [oid name | p p' c v Hb IH Hw | p p' v Hb IH Ho]; intros Hn.
  - constructor.
  - unfold when in Hw.
    destruct (_coeff_appends p p' c v Hw) as (_ & Hname & _).
    rewrite Hname in Hn. apply (_coeff_stores_text p p' c v Hn (IH Hn) Hw).
  - unfold otherwise in Ho.
    destruct (property_name p) as [name|] eqn:Hname; [|discriminate].
    assert (Hn' : property_name p <> None) by (rewrite Hname; discriminate).
    apply (_coeff_stores_text p p' ArgNone v Hn'); [|exact Ho].
    apply IH; first [exact Hn' | discriminate].
Qed.

Lemma stored_text_has_condition_text (rule : condition_arg * Q) :
  stored_text rule -> exists text, condition_text (fst rule) = Ok text.
Proof.
  intros (s & -> & [-> | [s' ->]]); eexists; reflexivity.
Qed.

(** X3.  What reaches [eval] from a named predictor.  For every rule of a
    predictor with a name that was built by [when] and [otherwise],
    [predict] can form the text to evaluate (the concatenation never
    fails), and this text is the test on [touched] alone or a text that
    opens with a parenthesis and ends with that test. *)
Theorem named_predictor_texts_are_wrapped
  (p : Predictor) (rule : condition_arg * Q)
  (Hb : built p) (Hn : property_name p <> None) (Hin : In rule (conditions p)) :
  exists text,
    condition_text (fst rule) = Ok text
    /\ (text = not_touched
        \/ exists s, text = (String "("%char s ++ " & (" ++ not_touched ++ ")")%string).
Proof.
  pose proof (built_named_stores_texts p Hb Hn) as Hall.
  rewrite Forall_forall in Hall.
  destruct (Hall rule Hin) as (s & Hs & [-> | [s' ->]]); rewrite Hs.
  - exists not_touched. split; [reflexivity | left; reflexivity].
  - eexists. split; [reflexivity|]. right. exists s'. reflexivity.
Qed.

Lemma named_predictor_texts_are_wrapped_witness :
  exists text,
    condition_text (ArgStr ""%string) = Ok text
    /\ (text = not_touched
        \/ exists s, text = (String "("%char s ++ " & (" ++ not_touched ++ ")")%string).
Proof.
  apply (named_predictor_texts_are_wrapped sex_with_default (ArgStr ""%string, 1%Q)).
  - apply (built_otherwise (Predictor_init 0 (Some "sex"%string)) _ 1%Q);
      [constructor | reflexivity].
  - discriminate.
  - left. reflexivity.
Defined.

(** X4.  A predictor without a name stores whatever [when] is given.  A
    condition that is true but not a string ([True], a number other than
    0, another true object) is accepted by [when] and makes [predict] fail
    on every table: [condition + ' & (~@touched)'] is a [TypeError]. *)
Theorem unnamed_non_string_condition_fails_in_predict
  (oid : nat) (c : condition_arg) (v : Q) (df : DataFrame)
  (Htrue : truthy c = true)
  (Hnot_str : forall s, c <> ArgStr s) :
  exists p,
    when (Predictor_init oid None) c v = Ok p
    /\ conditions p = [(c, v)]
    /\ Predictor_predict p df = Err (TypeError "unsupported operand type(s) for +").
Proof.
  eexists. split; [reflexivity|]. split; [reflexivity|].
  unfold Predictor_predict. cbn [append_condition Predictor_init conditions app predict_rules].
  unfold condition_text. rewrite Htrue.
  destruct c as [s|b|n| |t]; try reflexivity.
  exfalso. apply (Hnot_str s). reflexivity.
Qed.

Lemma unnamed_non_string_condition_fails_in_predict_witness :
  exists p,
    when (Predictor_init 0 None) (ArgBool true) 1%Q = Ok p
    /\ conditions p = [(ArgBool true, 1%Q)]
    /\ Predictor_predict p sexes = Err (TypeError "unsupported operand type(s) for +").
Proof.
  apply (unnamed_non_string_condition_fails_in_predict 0 (ArgBool true) 1%Q sexes).
  - reflexivity.
  - intros s H. discriminate H.
Defined.

End ConstructionChains.

(* ================================================================== *)
(** * What the loop of [Predictor.predict] maintains *)
(* ================================================================== *)

Module PredictInvariants.

Import Text Pandas Lm Examples Usage Elementwise.
Open Scope string_scope.
Open Scope list_scope.

(** ** The loop and its state *)

Lemma predict_rules_of_run (df : DataFrame) (rules : list (condition_arg * Q)) :
  forall (output : series) (touched : list bool),
    predict_rules df rules output touched
    = (st <- run_rules df rules output touched ;; Ok (fst st)).
Proof.
  induction rules as [|[c v] rules IH]; intros output touched;
    cbn [predict_rules run_rules bind]; [reflexivity|].
  destruct (condition_text c) as [text|e]; cbn [bind]; [|reflexivity].
  destruct (df_eval df touched text) as [mask|e]; cbn [bind]; [|reflexivity].
  apply IH.
Qed.

Lemma run_rules_app (df : DataFrame) (rules1 rules2 : list (condition_arg * Q)) :
  forall (output : series) (touched : list bool),
    run_rules df (rules1 ++ rules2) output touched
    = (st <- run_rules df rules1 output touched ;;
       run_rules df rules2 (fst st) (snd st)).
Proof.
  induction rules1 as [|[c v] rules1 IH]; intros output touched;
    cbn [app run_rules bind fst snd]; [reflexivity|].
  destruct (condition_text c) as [text|e]; cbn [bind]; [|reflexivity].
  destruct (df_eval df touched text) as [mask|e]; cbn [bind]; [|reflexivity].
  apply IH.
Qed.

Lemma run_rules_lengths (df : DataFrame) (rules : list (condition_arg * Q)) :
  forall (output output' : series) (touched touched' : list bool),
    length output = nrows df -> length touched = nrows df ->
    run_rules df rules output touched = Ok (output', touched') ->
    length output' = nrows df /\ length touched' = nrows df.
Proof.
  induction rules as [|[c v] rules IH]; intros output output' touched touched' Ho Ht H;
    cbn [run_rules] in H.
  - injection H as <- <-. split; assumption.
  - destruct (condition_text c) as [text|e]; cbn [bind] in H; [|discriminate].
    destruct (df_eval df touched text) as [mask|e] eqn:Hmask; cbn [bind] in H;
      [|discriminate].
    pose proof (ShortCircuit.df_eval_length df touched text mask Hmask) as Hlen.
    apply (IH (assign output mask v) output' (touch touched mask) touched');
      [| |exact H].
    + unfold assign. rewrite zip_with_length; congruence.
    + unfold touch. rewrite zip_with_length; congruence.
Qed.

(** ** The test on [touched] alone *)

Lemma mask_of_bool_cells (l : list bool) :
  map_result cell_bool (map CBool l) = Ok l.
Proof.
  induction l as [|b l IH]; cbn [map map_result cell_bool bind]; [reflexivity|].
  rewrite IH. reflexivity.
Qed.

Lemma df_eval_not_touched (df : DataFrame) (touched : list bool) :
  length touched = nrows df ->
  df_eval df touched not_touched = Ok (map negb touched).
Proof.
  intros Hlen. unfold df_eval.
  replace (parse_text not_touched) with (@Ok expr (EInvert (ELocal "touched")))
    by (vm_compute; reflexivity).
  cbn [bind eval_expr]. unfold resolve_local.
  replace (String.eqb "touched" "touched") with true by reflexivity.
  cbn [bind]. rewrite ShortCircuit.invert_touched. cbn [bind as_mask].
  rewrite !length_map, Hlen, Nat.eqb_refl.
  apply mask_of_bool_cells.
Qed.

Lemma unconditioned_text (c : condition_arg) :
  truthy c = false -> condition_text c = Ok not_touched.
Proof.
  intros H. unfold condition_text. rewrite H. reflexivity.
Qed.

(** ** Rows with a value are exactly the touched ones *)

Lemma marked_step (output : series) (touched mask : list bool) (v : Q) :
  marked output touched ->
  length mask = length touched ->
  marked (assign output mask v) (touch touched mask).
Proof.
  intros H. revert mask.
  induction H as [|o t output touched Hot _ IH]; intros [|m mask] Hlen;
    try discriminate Hlen; cbn [assign touch zip_with]; constructor.
  - destruct m; [discriminate|]. rewrite orb_false_r. exact Hot.
  - apply IH. injection Hlen as Hlen. exact Hlen.
Qed.

Lemma all_touched_step (touched mask : list bool) :
  all_touched touched ->
  length mask = length touched ->
  all_touched (touch touched mask).
Proof.
  intros H. revert mask.
  induction H as [|t touched Ht _ IH]; intros [|m mask] Hlen;
    try discriminate Hlen; cbn [touch zip_with]; constructor.
  - rewrite Ht. reflexivity.
  - apply IH. injection Hlen as Hlen. exact Hlen.
Qed.

Lemma all_touched_after_not_touched (touched : list bool) :
  all_touched (touch touched (map negb touched)).
Proof.
  induction touched as [|t touched IH]; cbn [map touch zip_with]; constructor.
  - destruct t; reflexivity.
  - exact IH.
Qed.

Lemma marked_all_touched (output : series) (touched : list bool) :
  marked output touched -> all_touched touched ->
  Forall (fun o => o <> None) output.
Proof.
  induction 1 as [|o t output touched Hot _ IH]; intros Hall; constructor;
    inversion Hall; subst; auto.
Qed.

Lemma run_rules_marks (df : DataFrame) (rules : list (condition_arg * Q)) :
  forall (output output' : series) (touched touched' : list bool),
    marked output touched ->
    length touched = nrows df ->
    run_rules df rules output touched = Ok (output', touched') ->
    marked output' touched'
    /\ (all_touched touched \/ Exists (fun rule => truthy (fst rule) = false) rules ->
        all_touched touched').
Proof.
  induction rules as [|[c v] rules IH];
    intros output output' touched touched' Hm Ht H; cbn [run_rules] in H.
  - injection H as <- <-. split; [exact Hm|].
    intros [Hall | Hex]; [exact Hall | inversion Hex].
  - destruct (condition_text c) as [text|e] eqn:Htext; cbn [bind] in H; [|discriminate].
    destruct (df_eval df touched text) as [mask|e] eqn:Hmask; cbn [bind] in H;
      [|discriminate].
    pose proof (ShortCircuit.df_eval_length df touched text mask Hmask) as Hlen.
    assert (Hlen' : length mask = length touched) by congruence.
    destruct (IH (assign output mask v) output' (touch touched mask) touched'
                 (marked_step output touched mask v Hm Hlen')) as [Hm' Hall'];
      [unfold touch; rewrite zip_with_length; congruence | exact H |].
    split; [exact Hm'|].
    intros [Hall | Hex]; apply Hall'.
    + left. apply all_touched_step; assumption.
    + inversion Hex as [rule rest Hc | rule rest Hrest]; subst.
      * left. cbn [fst] in Hc.
        rewrite (unconditioned_text c Hc) in Htext. injection Htext as <-.
        rewrite (df_eval_not_touched df touched Ht) in Hmask. injection Hmask as <-.
        apply all_touched_after_not_touched.
      * right. exact Hrest.
Qed.

Lemma marked_initially (n : nat) : marked (repeat None n) (repeat false n).
Proof.
  induction n as [|n IH]; cbn [repeat]; constructor; [discriminate | exact IH].
Qed.

Lemma predict_as_run (p : Predictor) (df : DataFrame) (out : series) :
  Predictor_predict p df = Ok out ->
  exists touched,
    run_rules df (conditions p) (repeat None (nrows df)) (repeat false (nrows df))
    = Ok (out, touched).
Proof.
  unfold Predictor_predict. rewrite predict_rules_of_run.
  destruct (run_rules df (conditions p) _ _) as [[o t]|e]; cbn [bind fst];
    [|discriminate].
  intros [= <-]. exists t. reflexivity.
Qed.

(** X5.  One entry per row: a column that [Predictor.predict] or
    [LinearModel.predict] returns has as many entries as the table has
    rows. *)
Theorem predict_returns_one_entry_per_row
  (p : Predictor) (lm : LinearModel) (df : DataFrame) (col : series) (out : list Q)
  (Hp : Predictor_predict p df = Ok col)
  (Hlm : LinearModel_predict lm df = Ok out) :
  length col = nrows df /\ length out = nrows df.
Proof.
  split.
  - destruct (predict_as_run p df col Hp) as [touched Hrun].
    apply (run_rules_lengths df (conditions p) _ col _ touched) in Hrun;
      [apply Hrun | apply repeat_length | apply repeat_length].
  - unfold LinearModel_predict in Hlm.
    destruct (intercept lm); [|discriminate].
    destruct (forallb (predictor_in_df df) (predictors lm)); [|discriminate].
    destruct (predict_columns df (predictors lm) _); cbn [bind] in Hlm; [|discriminate].
    injection Hlm as <-. rewrite length_map, length_seq. reflexivity.
Qed.

Lemma predict_returns_one_entry_per_row_witness :
  length [Some (3 # 2)%Q; None] = nrows sexes
  /\ length [(32 # 20)%Q; (1 # 10)%Q] = nrows sexes.
Proof.
  apply (predict_returns_one_entry_per_row sex_predictor additive_sex_model sexes);
    vm_compute; reflexivity.
Defined.

(** ** Values come from the rules *)

Lemma in_zip_with {A B C : Type} (f : A -> B -> C) (l : list A) (l' : list B) (x : C) :
  In x (zip_with f l l') -> exists a b, In a l /\ In b l' /\ x = f a b.
Proof.
  revert l'; induction l as [|a l IH]; intros [|b l'] H; cbn [zip_with] in H;
    try contradiction.
  destruct H as [<- | H].
  - exists a, b. repeat split; left; reflexivity.
  - destruct (IH l' H) as (a' & b' & Ha & Hb & ->).
    exists a', b'. repeat split; right; assumption.
Qed.

Lemma predict_rules_values (df : DataFrame) (rules : list (condition_arg * Q)) :
  forall (output out : series) (touched : list bool) (v : Q),
    predict_rules df rules output touched = Ok out ->
    In (Some v) out ->
    In (Some v) output \/ exists c, In (c, v) rules.
Proof.
  induction rules as [|[c w] rules IH]; intros output out touched v H Hin;
    cbn [predict_rules] in H.
  - injection H as <-. left. exact Hin.
  - destruct (condition_text c) as [text|e]; cbn [bind] in H; [|discriminate].
    destruct (df_eval df touched text) as [mask|e]; cbn [bind] in H; [|discriminate].
    destruct (IH _ out _ v H Hin) as [Hassigned | [c' Hc']].
    + unfold assign in Hassigned.
      apply in_zip_with in Hassigned as (o & m & Ho & _ & Heq).
      destruct m.
      * injection Heq as ->. right. exists c. left. reflexivity.
      * subst o. left. exact Ho.
    + right. exists c'. right. exact Hc'.
Qed.

(** X6.  Every value in the column of a predictor is the coefficient of
    one of its rules; the other entries are missing. *)
Theorem predicted_values_are_coefficients
  (p : Predictor) (df : DataFrame) (col : series) (v : Q)
  (Hp : Predictor_predict p df = Ok col)
  (Hin : In (Some v) col) :
  exists c, In (c, v) (conditions p).
Proof.
  destruct (predict_rules_values df (conditions p) _ col _ v Hp Hin) as [Hinit | Hrule].
  - apply repeat_spec in Hinit. discriminate Hinit.
  - exact Hrule.
Qed.

Lemma predicted_values_are_coefficients_witness :
  exists c, In (c, (3 # 2)%Q) (conditions sex_predictor).
Proof.
  apply (predicted_values_are_coefficients sex_predictor sexes [Some (3 # 2)%Q; None]).
  - vm_compute. reflexivity.
  - left. reflexivity.
Defined.

(** ** Unconditioned rules *)

(** X7.  A predictor that holds an unconditioned rule leaves no row
    without a value: when [predict] succeeds, no entry of the column is
    missing, wherever the rule stands among the others. *)
Theorem unconditioned_rule_fills_every_row
  (p : Predictor) (df : DataFrame) (col : series) (rule : condition_arg * Q)
  (Hin : In rule (conditions p))
  (Hrule : truthy (fst rule) = false)
  (Hp : Predictor_predict p df = Ok col) :
  Forall (fun o => o <> None) col.
Proof.
  destruct (predict_as_run p df col Hp) as [touched Hrun].
  destruct (run_rules_marks df (conditions p) _ col _ touched
              (marked_initially (nrows df)) (repeat_length false (nrows df)) Hrun)
    as [Hmarked Hall].
  apply (marked_all_touched col touched Hmarked).
  apply Hall. right. apply Exists_exists. exists rule. split; assumption.
Qed.

Lemma unconditioned_rule_fills_every_row_witness :
  Forall (fun o : option Q => o <> None) [Some 1%Q; Some 1%Q].
Proof.
  apply (unconditioned_rule_fills_every_row sex_with_default sexes
           [Some 1%Q; Some 1%Q] (ArgStr "", 1%Q)).
  - left. reflexivity.
  - reflexivity.
  - vm_compute. reflexivity.
Defined.

Lemma assign_all (n : nat) (v : Q) :
  assign (repeat None n) (map negb (repeat false n)) v = repeat (Some v) n.
Proof.
  induction n as [|n IH]; cbn [repeat map assign zip_with negb]; [reflexivity|].
  f_equal. exact IH.
Qed.

(** X8.  A predictor whose only rule is unconditioned gives the value of
    that rule to every row of every table.  The table need not have the
    column that the predictor is named after: the text that is evaluated
    is the test on [touched] alone. *)
Theorem default_only_predictor_is_constant
  (p : Predictor) (c : condition_arg) (v : Q) (df : DataFrame)
  (Hrules : conditions p = [(c, v)])
  (Hc : truthy c = false) :
  Predictor_predict p df = Ok (repeat (Some v) (nrows df)).
Proof.
  unfold Predictor_predict. rewrite Hrules. cbn [predict_rules].
  rewrite (unconditioned_text c Hc). cbn [bind].
  rewrite df_eval_not_touched by apply repeat_length. cbn [bind].
  rewrite assign_all. reflexivity.
Qed.

Lemma default_only_predictor_is_constant_witness :
  otherwise (Predictor_init 0 (Some "sex")) 1%Q = Ok sex_with_default
  /\ Predictor_predict sex_with_default ages_only = Ok (repeat (Some 1%Q) (nrows ages_only)).
Proof.
  split; [reflexivity|].
  apply (default_only_predictor_is_constant sex_with_default (ArgStr "") 1%Q ages_only);
    reflexivity.
Defined.

End PredictInvariants.

(* ================================================================== *)
(** * Priority among guarded rules *)
(* ================================================================== *)

Module RulePriority.

Import Text Pandas Lm Examples Usage Elementwise PredictInvariants.
Open Scope string_scope.
Open Scope list_scope.

Lemma predict_rules_split
  (df : DataFrame) (before after : list (condition_arg * Q))
  (output0 output col : series) (touched0 touched : list bool) :
  run_rules df before output0 touched0 = Ok (output, touched) ->
  predict_rules df (before ++ after) output0 touched0 = Ok col ->
  predict_rules df after output touched = Ok col.
Proof.
  intros Hbefore Hcol.
  rewrite predict_rules_of_run, run_rules_app, Hbefore in Hcol.
  cbn [bind fst snd] in Hcol.
  rewrite predict_rules_of_run. exact Hcol.
Qed.

Lemma all_touched_nth (touched : list bool) (i : nat) :
  all_touched touched -> (i < length touched)%nat -> nth i touched false = true.
Proof.
  intros H. revert i. induction H as [|t touched Ht _ IH]; intros i Hi;
    cbn [length] in Hi; [lia|].
  destruct i as [|i]; cbn [nth]; [exact Ht | apply IH; lia].
Qed.

(** X9.  Once a rule has matched a row, the guarded rules after it leave
    that row alone: the row ends with the value of the rule that matched
    it, whatever conditions the later rules have. *)
Theorem matched_row_keeps_its_value
  (df : DataFrame) (before after : list (condition_arg * Q))
  (c : condition_arg) (v : Q) (text : string)
  (output col : series) (touched mask : list bool) (i : nat)
  (Hbefore : run_rules df before (repeat None (nrows df)) (repeat false (nrows df))
             = Ok (output, touched))
  (Htext : condition_text c = Ok text)
  (Hmask : df_eval df touched text = Ok mask)
  (Hi : nth i mask false = true)
  (Hafter : forallb guarded_rule after = true)
  (Hcol : predict_rules df (before ++ (c, v) :: after)
            (repeat None (nrows df)) (repeat false (nrows df)) = Ok col) :
  nth i col None = Some v.
Proof.
  destruct (run_rules_lengths df before _ output _ touched
              (repeat_length _ _) (repeat_length _ _) Hbefore) as [Ho Ht].
  pose proof (ShortCircuit.df_eval_length df touched text mask Hmask) as Hm.
  apply (predict_rules_split df before _ _ output col _ touched Hbefore) in Hcol.
  cbn [predict_rules] in Hcol. rewrite Htext in Hcol. cbn [bind] in Hcol.
  rewrite Hmask in Hcol. cbn [bind] in Hcol.
  rewrite (ShortCircuit.guarded_rules_keep_touched_rows df after Hafter
             (assign output mask v) (touch touched mask) col).
  - unfold assign.
    rewrite (nth_zip_with (fun o (m : bool) => if m then Some v else o) None false)
      by congruence.
    rewrite Hi. reflexivity.
  - unfold assign. rewrite zip_with_length; congruence.
  - unfold touch. rewrite zip_with_length; congruence.
  - exact Hcol.
  - unfold touch. rewrite (nth_zip_with orb false false) by congruence.
    rewrite Hi. apply orb_true_r.
Qed.

Lemma matched_row_keeps_its_value_witness :
  nth 0 [Some 1%Q] None = Some 1%Q.
Proof.
  apply (matched_row_keeps_its_value flags []
           [(ArgStr "(a| b)", 2%Q)] (ArgStr "(a == True)") 1%Q
           "(a == True) & (~@touched)" [None] [Some 1%Q] [false] [true] 0%nat);
    vm_compute; reflexivity.
Defined.

(** X10.  Guarded rules that follow an unconditioned rule have no effect:
    the unconditioned rule touches every row, so the column is the one
    that the rules up to and including it produce. *)
Theorem rules_after_unconditioned_rule_are_dead
  (p p' : Predictor) (df : DataFrame) (before after : list (condition_arg * Q))
  (c : condition_arg) (v : Q) (col : series)
  (Hrules : conditions p = before ++ (c, v) :: after)
  (Hrules' : conditions p' = before ++ [(c, v)])
  (Hc : truthy c = false)
  (Hafter : forallb guarded_rule after = true)
  (Hcol : Predictor_predict p df = Ok col) :
  Predictor_predict p' df = Ok col.
Proof.
  unfold Predictor_predict in *. rewrite Hrules in Hcol. rewrite Hrules'.
  replace (before ++ (c, v) :: after) with ((before ++ [(c, v)]) ++ after) in Hcol
    by (rewrite <- app_assoc; reflexivity).
  rewrite predict_rules_of_run.
  rewrite predict_rules_of_run, run_rules_app in Hcol.
  destruct (run_rules df (before ++ [(c, v)]) _ _) as [[output touched]|e] eqn:Hrun;
    cbn [bind fst snd] in *; [|discriminate].
  destruct (run_rules_lengths df _ _ output _ touched
              (repeat_length _ _) (repeat_length _ _) Hrun) as [Ho Ht].
  destruct (run_rules_marks df _ _ output _ touched
              (marked_initially (nrows df)) (repeat_length false (nrows df)) Hrun)
    as [_ Hall].
  assert (Htouched : all_touched touched).
  { apply Hall. right. apply Exists_exists. exists (c, v). split; [|exact Hc].
    apply in_or_app. right. left. reflexivity. }
  rewrite <- predict_rules_of_run in Hcol.
  destruct (run_rules df after output touched) as [[col' touched']|e] eqn:Hafter_run.
  - destruct (run_rules_lengths df after output col' touched touched' Ho Ht Hafter_run)
      as [Hlen _].
    rewrite predict_rules_of_run, Hafter_run in Hcol. cbn [bind fst] in Hcol.
    injection Hcol as <-. f_equal. symmetry.
    apply (nth_ext col' output None None); [congruence|].
    intros i Hi.
    apply (ShortCircuit.guarded_rules_keep_touched_rows df after Hafter
             output touched col' Ho Ht).
    + rewrite predict_rules_of_run, Hafter_run. reflexivity.
    + apply all_touched_nth; [exact Htouched | lia].
  - rewrite predict_rules_of_run, Hafter_run in Hcol. discriminate Hcol.
Qed.

Lemma rules_after_unconditioned_rule_are_dead_witness :
  Predictor_predict sex_with_default sexes = Ok [Some 1%Q; Some 1%Q].
Proof.
  apply (rules_after_unconditioned_rule_are_dead
           {| object_id := 0; property_name := Some "sex";
              conditions := [(ArgStr "", 1%Q);
                             (ArgStr ("(sex == " ++ dquote ++ "M" ++ dquote ++ ")"), 3 # 2)];
              else_condition_supplied := true |}
           sex_with_default sexes []
           [(ArgStr ("(sex == " ++ dquote ++ "M" ++ dquote ++ ")"), 3 # 2)]
           (ArgStr "") 1%Q);
    vm_compute; reflexivity.
Defined.

End RulePriority.

(* ================================================================== *)
(** * How [LinearModel.predict] combines its columns *)
(* ================================================================== *)

Module ModelComposition.

Import Text Pandas Lm Examples Usage Elementwise PredictInvariants.
Open Scope string_scope.
Open Scope list_scope.

(** ** Models without predictors *)

(** X11.  An additive and a multiplicative model without predictors
    return the intercept for every row of every table. *)
Theorem additive_and_multiplicative_without_predictors (c : Q) (df : DataFrame) :
  LinearModel_predict {| lm_type := ADDITIVE; intercept := Some c; predictors := [] |} df
  = Ok (repeat c (nrows df))
  /\ LinearModel_predict
       {| lm_type := MULTIPLICATIVE; intercept := Some c; predictors := [] |} df
     = Ok (repeat c (nrows df)).
Proof.
  unfold LinearModel_predict.
  cbn [intercept predictors lm_type forallb predict_columns bind].
  split; f_equal; apply LinearModelChecks.map_constant_on_seq; intros i Hi;
    cbn [combine_row]; unfold row_sum, row_prod, row_entries, intercept_frame;
    cbn [set_column map snd];
    rewrite LinearModelChecks.nth_repeat_lt by exact Hi;
    cbn [present fold_left].
  - apply LinearModelChecks.Qplus_zero_left.
  - apply LinearModelChecks.Qmult_one_left.
Qed.

(** ** Failing predictors *)

Lemma predict_columns_app (df : DataFrame) (ps1 ps2 : list Predictor) :
  forall fr : frame,
    predict_columns df (ps1 ++ ps2) fr
    = (fr' <- predict_columns df ps1 fr ;; predict_columns df ps2 fr').
Proof.
  induction ps1 as [|p ps1 IH]; intros fr; cbn [app predict_columns bind];
    [reflexivity|].
  destruct (Predictor_predict p df) as [col|e]; cbn [bind]; [|reflexivity].
  apply IH.
Qed.

Lemma predict_columns_fails (df : DataFrame) (ps : list Predictor) (p : Predictor)
      (e : error) :
  In p ps -> Predictor_predict p df = Err e ->
  forall fr, exists e', predict_columns df ps fr = Err e'.
Proof.
  induction ps as [|q ps IH]; intros Hin He fr; [contradiction|].
  cbn [predict_columns].
  destruct (Predictor_predict q df) as [col|e1] eqn:Hq; cbn [bind].
  - destruct Hin as [-> | Hin]; [rewrite He in Hq; discriminate|].
    apply (IH Hin He).
  - exists e1. reflexivity.
Qed.

(** X12.  No partial result: when [predict] of one of the predictors
    fails on the table, [predict] of the model fails as well and returns
    no column. *)
Theorem failing_predictor_fails_the_model
  (lm : LinearModel) (df : DataFrame) (p : Predictor) (e : error)
  (Hin : In p (predictors lm))
  (He : Predictor_predict p df = Err e) :
  exists e', LinearModel_predict lm df = Err e'.
Proof.
  unfold LinearModel_predict.
  destruct (intercept lm) as [c|]; [|eexists; reflexivity].
  destruct (forallb (predictor_in_df df) (predictors lm)); [|eexists; reflexivity].
  destruct (predict_columns_fails df (predictors lm) p e Hin He
              (intercept_frame c (nrows df))) as [e' ->].
  exists e'. reflexivity.
Qed.

Lemma failing_predictor_fails_the_model_witness :
  exists e',
    LinearModel_predict
      {| lm_type := ADDITIVE; intercept := Some 1%Q;
         predictors := [{| object_id := 0; property_name := Some "age";
                           conditions := [(ArgStr "(age == 5", 2%Q)];
                           else_condition_supplied := false |}] |}
      (ages [[CInt 5]])
    = Err e'.
Proof.
  apply (failing_predictor_fails_the_model _ _
           {| object_id := 0; property_name := Some "age";
              conditions := [(ArgStr "(age == 5", 2%Q)];
              else_condition_supplied := false |}
           (EvalError UnexpectedEOF)).
  - left. reflexivity.
  - vm_compute. reflexivity.
Defined.

(** ** The same predictor given twice *)

Lemma label_eqb_refl (k : label) : label_eqb k k = true.
Proof. destruct k; cbn [label_eqb]; [reflexivity | apply Nat.eqb_refl]. Qed.

Lemma label_eqb_eq (k k' : label) : label_eqb k k' = true <-> k = k'.
Proof.
  destruct k as [|i], k' as [|j]; cbn [label_eqb]; split; intros H;
    try reflexivity; try discriminate.
  - apply Nat.eqb_eq in H. subst. reflexivity.
  - injection H as ->. apply Nat.eqb_refl.
Qed.

Lemma column_of_set_same (k : label) (c : series) (fr : frame) :
  column_of k (set_column k c fr) = Some c.
Proof.
  induction fr as [|[k' c'] fr IH]; cbn [set_column column_of].
  - rewrite label_eqb_refl. reflexivity.
  - destruct (label_eqb k' k) eqn:Hk; cbn [column_of].
    + rewrite label_eqb_refl. reflexivity.
    + rewrite Hk. exact IH.
Qed.

Lemma column_of_set_other (k k' : label) (c : series) (fr : frame) :
  k' <> k ->
  column_of k (set_column k' c fr) = column_of k fr.
Proof.
  intros Hne. induction fr as [|[k0 c0] fr IH]; cbn [set_column column_of].
  - destruct (label_eqb k' k) eqn:Hk; [|reflexivity].
    apply label_eqb_eq in Hk. contradiction.
  - destruct (label_eqb k0 k') eqn:Hk0; cbn [column_of].
    + apply label_eqb_eq in Hk0. subst k0.
      destruct (label_eqb k' k) eqn:Hk; [|reflexivity].
      apply label_eqb_eq in Hk. contradiction.
    + destruct (label_eqb k0 k); [reflexivity | exact IH].
Qed.

Lemma set_column_present (k : label) (c : series) (fr : frame) :
  column_of k fr = Some c -> set_column k c fr = fr.
Proof.
  induction fr as [|[k0 c0] fr IH]; cbn [set_column column_of]; [discriminate|].
  destruct (label_eqb k0 k) eqn:Hk.
  - intros [= ->]. apply label_eqb_eq in Hk. subst. reflexivity.
  - intros H. rewrite (IH H). reflexivity.
Qed.

Lemma predict_columns_keeps_column
  (df : DataFrame) (ps : list Predictor) (oid : nat) :
  Forall (fun q => object_id q <> oid) ps ->
  forall fr fr' : frame,
    predict_columns df ps fr = Ok fr' ->
    column_of (LPredictor oid) fr' = column_of (LPredictor oid) fr.
Proof.
  induction 1 as [|q ps Hq _ IH]; intros fr fr' H; cbn [predict_columns] in H.
  - injection H as <-. reflexivity.
  - destruct (Predictor_predict q df) as [col|e]; cbn [bind] in H; [|discriminate].
    rewrite (IH _ _ H). apply column_of_set_other.
    intros Heq. injection Heq as Heq. contradiction.
Qed.

(** X13.  A predictor object is one column of the frame, however often it
    is given: the frame is labelled by the predictor objects, so giving
    the same predictor a second time leaves the result of the model as it
    is, on every table. *)
Theorem repeated_predictor_object_counts_once
  (t : LinearModelType) (c : option Q) (p : Predictor)
  (first between last : list Predictor) (df : DataFrame)
  (Hbetween : Forall (fun q => object_id q <> object_id p) between) :
  LinearModel_predict
    {| lm_type := t; intercept := c;
       predictors := first ++ p :: between ++ p :: last |} df
  = LinearModel_predict
      {| lm_type := t; intercept := c;
         predictors := first ++ p :: between ++ last |} df.
Proof.
  unfold LinearModel_predict. cbn [intercept predictors lm_type].
  destruct c as [c|]; [|reflexivity].
  assert (Hcheck : forallb (predictor_in_df df) (first ++ p :: between ++ p :: last)
                   = forallb (predictor_in_df df) (first ++ p :: between ++ last)).
  { rewrite !forallb_app. cbn [forallb]. rewrite !forallb_app. cbn [forallb].
    destruct (predictor_in_df df p); [reflexivity|].
    cbn [andb]. rewrite !andb_false_r. reflexivity. }
  rewrite Hcheck.
  destruct (forallb (predictor_in_df df) (first ++ p :: between ++ last)); [|reflexivity].
  assert (Hcols : forall fr,
            predict_columns df (first ++ p :: between ++ p :: last) fr
            = predict_columns df (first ++ p :: between ++ last) fr).
  { intros fr. rewrite !predict_columns_app.
    destruct (predict_columns df first fr) as [fr1|e]; cbn [bind]; [|reflexivity].
    cbn [predict_columns].
    destruct (Predictor_predict p df) as [col|e] eqn:Hp; cbn [bind]; [|reflexivity].
    rewrite !predict_columns_app.
    destruct (predict_columns df between
                (set_column (LPredictor (object_id p)) col fr1)) as [fr2|e] eqn:Hmid;
      cbn [bind]; [|reflexivity].
    cbn [predict_columns]. rewrite Hp. cbn [bind].
    rewrite set_column_present; [reflexivity|].
    rewrite (predict_columns_keeps_column df between (object_id p) Hbetween _ _ Hmid).
    apply column_of_set_same. }
  rewrite Hcols. reflexivity.
Qed.

Lemma repeated_predictor_object_counts_once_witness :
  LinearModel_predict
    {| lm_type := ADDITIVE; intercept := Some 0%Q;
       predictors := [sex_predictor; sex_predictor] |} sexes
  = LinearModel_predict
      {| lm_type := ADDITIVE; intercept := Some 0%Q;
         predictors := [sex_predictor] |} sexes.
Proof.
  apply (repeated_predictor_object_counts_once ADDITIVE (Some 0%Q) sex_predictor [] [] [] sexes).
  constructor.
Defined.

End ModelComposition.

(* ================================================================== *)
(** * The order of the predictors *)
(* ================================================================== *)

Module PredictorOrder.

Import Text Pandas Lm Examples Usage Elementwise PredictInvariants ModelComposition.
Open Scope string_scope.
Open Scope list_scope.

(** ** Frames with one column per predictor *)

Lemma set_column_fresh (k : label) (c : series) (fr : frame) :
  ~ In k (keys fr) -> set_column k c fr = fr ++ [(k, c)].
Proof.
  induction fr as [|[k0 c0] fr IH]; intros Hfresh; cbn [set_column app];
    [reflexivity|].
  cbn [keys map fst In] in Hfresh.
  destruct (label_eqb k0 k) eqn:Hk.
  - apply label_eqb_eq in Hk. exfalso. apply Hfresh. left. exact Hk.
  - rewrite IH; [reflexivity|]. intros Hin. apply Hfresh. right. exact Hin.
Qed.

Lemma keys_app (fr fr' : frame) : keys (fr ++ fr') = keys fr ++ keys fr'.
Proof. unfold keys. apply map_app. Qed.

(** With distinct predictor objects the frame is the initial frame
    followed by one column per predictor, in the order of the predictors. *)
Lemma predict_columns_distinct (df : DataFrame) (ps : list Predictor) :
  NoDup (map object_id ps) ->
  forall fr : frame,
    (forall p, In p ps -> ~ In (LPredictor (object_id p)) (keys fr)) ->
    (forallb (predicts df) ps = true ->
     predict_columns df ps fr = Ok (fr ++ map (entry df) ps))
    /\ (forall fr', predict_columns df ps fr = Ok fr' ->
        forallb (predicts df) ps = true).
Proof.
  induction ps as [|p ps IH]; intros Hnd fr Hfresh; cbn [predict_columns forallb map].
  - split; [intros _; rewrite app_nil_r; reflexivity | reflexivity].
  - cbn [map] in Hnd. inversion Hnd as [|x l Hnotin Hnd']; subst.
    assert (Hnext : forall col q, In q ps ->
              ~ In (LPredictor (object_id q))
                   (keys (fr ++ [(LPredictor (object_id p), col)]))).
    { intros col q Hq. rewrite keys_app. intros Hin.
      apply in_app_or in Hin as [Hin | [Heq | []]].
      - apply (Hfresh q (or_intror Hq) Hin).
      - cbn [fst] in Heq. apply Hnotin.
        replace (object_id p) with (object_id q) by congruence.
        apply in_map. exact Hq. }
    unfold predicts at 1 3, entry at 1.
    destruct (Predictor_predict p df) as [col|e]; cbn [is_ok bind andb].
    + rewrite set_column_fresh by (apply Hfresh; left; reflexivity).
      destruct (IH Hnd' _ (Hnext col)) as [Hok Hback]. split.
      * intros Hall. rewrite (Hok Hall), <- app_assoc. reflexivity.
      * exact Hback.
    + split; discriminate.
Qed.

Lemma forallb_permutation {A : Type} (f : A -> bool) (l l' : list A) :
  Permutation l l' -> forallb f l = forallb f l'.
Proof.
  induction 1 as [| x l l' _ IH | x y l | l l' l'' _ IH1 _ IH2]; cbn [forallb].
  - reflexivity.
  - rewrite IH. reflexivity.
  - destruct (f x), (f y); reflexivity.
  - congruence.
Qed.

(** ** The rows of the frame under another order *)

Lemma present_app (l l' : list (option Q)) : present (l ++ l') = present l ++ present l'.
Proof.
  induction l as [|[q|] l IH]; cbn [app present]; [reflexivity | f_equal; exact IH | exact IH].
Qed.

Lemma present_permutation {A : Type} (g : A -> option Q) (l l' : list A) :
  Permutation l l' -> Permutation (present (map g l)) (present (map g l')).
Proof.
  induction 1 as [| x l l' _ IH | x y l | l l' l'' _ IH1 _ IH2]; cbn [map present].
  - constructor.
  - destruct (g x); [constructor|]; exact IH.
  - destruct (g x), (g y); try reflexivity. constructor.
  - eapply perm_trans; eassumption.
Qed.

Lemma row_entries_app (fr fr' : frame) (i : nat) :
  row_entries (fr ++ fr') i = row_entries fr i ++ row_entries fr' i.
Proof. unfold row_entries. apply map_app. Qed.

Lemma present_entries_permutation (df : DataFrame) (ps ps' : list Predictor) (i : nat) :
  Permutation ps ps' ->
  Permutation (present (row_entries (map (entry df) ps) i))
              (present (row_entries (map (entry df) ps') i)).
Proof.
  intros H. unfold row_entries. rewrite !map_map.
  apply present_permutation. exact H.
Qed.

(** X14.  The order of the predictors only orders the columns.  For
    distinct predictor objects, a model given the predictors in another
    order succeeds on the same tables; the frame of results that it
    combines holds the same columns, the intercept first and the others
    in the other order; and each output is the combination of a row that
    holds the same values in another order. *)
Theorem predictor_order_permutes_columns
  (t : LinearModelType) (c : option Q) (ps ps' : list Predictor)
  (df : DataFrame) (out : list Q)
  (Hdistinct : NoDup (map object_id ps))
  (Hperm : Permutation ps ps')
  (Hout : LinearModel_predict {| lm_type := t; intercept := c; predictors := ps |} df
          = Ok out) :
  exists (c0 : Q) (cols cols' : frame),
    c = Some c0
    /\ predict_columns df ps (intercept_frame c0 (nrows df))
       = Ok (intercept_frame c0 (nrows df) ++ cols)
    /\ predict_columns df ps' (intercept_frame c0 (nrows df))
       = Ok (intercept_frame c0 (nrows df) ++ cols')
    /\ Permutation cols cols'
    /\ (forall i, Permutation
                    (present (row_entries (intercept_frame c0 (nrows df) ++ cols) i))
                    (present (row_entries (intercept_frame c0 (nrows df) ++ cols') i)))
    /\ out = map (combine_row t (intercept_frame c0 (nrows df) ++ cols))
                 (seq 0 (nrows df))
    /\ LinearModel_predict {| lm_type := t; intercept := c; predictors := ps' |} df
       = Ok (map (combine_row t (intercept_frame c0 (nrows df) ++ cols'))
                 (seq 0 (nrows df))).
Proof.
  unfold LinearModel_predict in *. cbn [intercept predictors lm_type] in *.
  destruct c as [c|]; [|discriminate].
  rewrite <- (forallb_permutation (predictor_in_df df) ps ps' Hperm).
  destruct (forallb (predictor_in_df df) ps); [|discriminate].
  assert (Hfresh : forall qs q, In q qs ->
            ~ In (LPredictor (object_id q)) (keys (intercept_frame c (nrows df)))).
  { intros qs q _ [H | []]. discriminate H. }
  assert (Hdistinct' : NoDup (map object_id ps')).
  { apply (Permutation_NoDup (Permutation_map object_id Hperm) Hdistinct). }
  destruct (predict_columns_distinct df ps Hdistinct _ (Hfresh ps)) as [Hok Hback].
  destruct (predict_columns_distinct df ps' Hdistinct' _ (Hfresh ps')) as [Hok' _].
  destruct (predict_columns df ps (intercept_frame c (nrows df))) as [fr|e] eqn:Hcols;
    cbn [bind] in Hout; [|discriminate].
  pose proof (Hback fr eq_refl) as Hall.
  assert (Hfr : fr = intercept_frame c (nrows df) ++ map (entry df) ps)
    by (injection (Hok Hall) as H; exact H).
  rewrite Hfr in Hout. clear Hok Hback.
  assert (Hcols' : predict_columns df ps' (intercept_frame c (nrows df))
                   = Ok (intercept_frame c (nrows df) ++ map (entry df) ps')).
  { apply Hok'. rewrite <- (forallb_permutation (predicts df) ps ps' Hperm). exact Hall. }
  exists c, (map (entry df) ps), (map (entry df) ps').
  split; [reflexivity|]. split; [rewrite Hcols, Hfr; reflexivity|].
  split; [exact Hcols'|]. split; [apply Permutation_map; exact Hperm|].
  split.
  - intros i. rewrite !row_entries_app, !present_app.
    apply Permutation_app_head. apply present_entries_permutation. exact Hperm.
  - split.
    + injection Hout as <-. reflexivity.
    + rewrite Hcols'. reflexivity.
Qed.

Lemma predictor_order_permutes_columns_witness :
  exists (c0 : Q) (cols cols' : frame),
    Some 1%Q = Some c0
    /\ predict_columns sexes [sex_predictor; sex_with_default_1]
                       (intercept_frame c0 (nrows sexes))
       = Ok (intercept_frame c0 (nrows sexes) ++ cols)
    /\ predict_columns sexes [sex_with_default_1; sex_predictor]
                       (intercept_frame c0 (nrows sexes))
       = Ok (intercept_frame c0 (nrows sexes) ++ cols')
    /\ Permutation cols cols'
    /\ (forall i, Permutation
                    (present (row_entries (intercept_frame c0 (nrows sexes) ++ cols) i))
                    (present (row_entries (intercept_frame c0 (nrows sexes) ++ cols') i)))
    /\ [(9 # 4) / (1 + (9 # 4)); (3 # 2) / (1 + (3 # 2))]%Q
       = map (combine_row LOGISTIC (intercept_frame c0 (nrows sexes) ++ cols))
             (seq 0 (nrows sexes))
    /\ LinearModel_predict
         {| lm_type := LOGISTIC; intercept := Some 1%Q;
            predictors := [sex_with_default_1; sex_predictor] |} sexes
       = Ok (map (combine_row LOGISTIC (intercept_frame c0 (nrows sexes) ++ cols'))
                 (seq 0 (nrows sexes))).
Proof.
  apply (predictor_order_permutes_columns LOGISTIC (Some 1%Q)
           [sex_predictor; sex_with_default_1] [sex_with_default_1; sex_predictor] sexes).
  - repeat constructor; cbn; intuition discriminate.
  - constructor.
  - vm_compute. reflexivity.
Defined.

End PredictorOrder.

(* ================================================================== *)
(** * Literal conditions, from [_coeff] through [eval] *)
(* ================================================================== *)

Module LiteralConditions.

Import Text Pandas Lm Examples Usage Elementwise PredictInvariants.
Open Scope string_scope.

(** ** Strings *)

Lemma append_assoc (a b c : string) : (a ++ b) ++ c = a ++ (b ++ c).
Proof. induction a as [|x a IH]; cbn [append]; [reflexivity | rewrite IH; reflexivity]. Qed.

Lemma append_empty (a : string) : a ++ "" = a.
Proof. induction a as [|x a IH]; cbn [append]; [reflexivity | rewrite IH; reflexivity]. Qed.

Lemma snoc_append (acc : string) (c : ascii) (s : string) :
  snoc acc c ++ s = acc ++ String c s.
Proof. unfold snoc. rewrite append_assoc. reflexivity. Qed.

(** ** Runs of the lexer *)

Lemma bind_return {A : Type} (x : result A) : (r <- x ;; Ok r) = x.
Proof. destruct x; reflexivity. Qed.

Lemma lex_name_run (s : string) :
  forall (l : bool) (acc rest : string),
    all_chars is_name_char s = true ->
    lex (InName l acc) (s ++ rest) = lex (InName l (acc ++ s)) rest.
Proof.
  induction s as [|c s IH]; intros l acc rest H; cbn [append].
  - rewrite append_empty. reflexivity.
  - cbn [all_chars] in H. apply andb_prop in H as [Hc Hs].
    cbn [lex step]. unfold is_name_char in Hc. rewrite Hc. cbn [bind app].
    rewrite bind_return, (IH l _ rest Hs), snoc_append. reflexivity.
Qed.

Lemma lex_digit_run (s : string) :
  forall (z : Z) (rest : string),
    all_chars is_digit s = true ->
    lex (InInt z) (s ++ rest) = lex (InInt (digits_value z s)) rest.
Proof.
  induction s as [|c s IH]; intros z rest H; cbn [append digits_value].
  - reflexivity.
  - cbn [all_chars] in H. apply andb_prop in H as [Hc Hs].
    cbn [lex step]. rewrite Hc. cbn [bind app].
    rewrite bind_return. apply (IH _ rest Hs).
Qed.

Lemma lex_string_run (q : ascii) (s : string) :
  forall (acc rest : string),
    all_chars (plain_char q) s = true ->
    lex (InStr q acc) (s ++ rest) = lex (InStr q (acc ++ s)) rest.
Proof.
  induction s as [|c s IH]; intros acc rest H; cbn [append].
  - rewrite append_empty. reflexivity.
  - cbn [all_chars] in H. apply andb_prop in H as [Hc Hs].
    unfold plain_char in Hc. apply andb_prop in Hc as [Hc _].
    apply andb_prop in Hc as [Hq Hb]. apply negb_true_iff in Hq, Hb.
    cbn [lex step]. rewrite Hq, Hb. cbn [bind app].
    rewrite bind_return, (IH _ rest Hs), snoc_append. reflexivity.
Qed.

Lemma start_of_letter (c : ascii) :
  is_alpha c = true -> start c = Ok ([], InName false (String c EmptyString)).
Proof.
  intros H. unfold start.
  assert (Hspace : is_space c = false).
  { destruct c as [[] [] [] [] [] [] [] []]; try discriminate H; reflexivity. }
  rewrite Hspace, H. reflexivity.
Qed.

Lemma start_of_digit (c : ascii) :
  is_digit c = true -> start c = Ok ([], InInt (digit_value c)).
Proof.
  intros H. unfold start.
  assert (Hother : is_space c = false /\ is_alpha c = false).
  { destruct c as [[] [] [] [] [] [] [] []]; try discriminate H; split; reflexivity. }
  destruct Hother as [-> ->]. rewrite H. reflexivity.
Qed.

Lemma identifier_token (name : string) :
  is_identifier name = true -> word_token name = TName name.
Proof.
  unfold is_identifier, is_keyword. intros H. apply andb_prop in H as [_ H].
  apply negb_true_iff in H. cbn [existsb] in H.
  repeat (apply orb_false_elim in H as [? H]).
  unfold word_token.
  repeat match goal with Hk : String.eqb name _ = false |- _ => rewrite Hk; clear Hk end.
  reflexivity.
Qed.

(** The opening parenthesis and the name. *)
Lemma lex_open_name (name rest : string) :
  is_identifier name = true ->
  lex Idle (String "(" (name ++ rest))
  = (r <- lex (InName false name) rest ;; Ok (TLParen :: r)).
Proof.
  intros H. pose proof H as Hid. unfold is_identifier in H.
  apply andb_prop in H as [H _].
  destruct name as [|c0 name']; [discriminate|]. apply andb_prop in H as [Hc0 Hrest].
  cbn [lex]. change (step Idle "(") with (@Ok (list token * lex_mode) ([TLParen], Idle)).
  cbn [bind append lex]. unfold step. rewrite (start_of_letter c0 Hc0).
  cbn [bind app]. rewrite bind_return.
  rewrite (lex_name_run name' false _ rest Hrest). reflexivity.
Qed.

(** The comparison sign after the name. *)
Lemma lex_equals (name rest : string) :
  lex (InName false name) (" == " ++ rest)
  = (r <- lex Idle rest ;; Ok (word_token name :: TCmp OpEq :: r)).
Proof.
  cbn [append lex].
  change (step (InName false name) " ")
    with (@Ok (list token * lex_mode) ([word_token name], Idle)).
  cbn [bind].
  change (step Idle "=") with (@Ok (list token * lex_mode) ([], InOp "=")).
  cbn [bind].
  change (step (InOp "=") "=") with (@Ok (list token * lex_mode) ([TCmp OpEq], Idle)).
  cbn [bind].
  change (step Idle " ") with (@Ok (list token * lex_mode) ([], Idle)).
  cbn [bind app]. destruct (lex Idle rest); reflexivity.
Qed.

Lemma lex_guard_after_paren :
  lex Idle (") & (" ++ not_touched ++ ")") = Ok (TRParen :: guard_tokens).
Proof. vm_compute. reflexivity. Qed.

Lemma lex_guard_after_word (w : string) :
  lex (InName false w) (") & (" ++ not_touched ++ ")")
  = Ok (word_token w :: TRParen :: guard_tokens).
Proof.
  cbn [append not_touched lex].
  change (step (InName false w) ")")
    with (@Ok (list token * lex_mode) ([word_token w; TRParen], Idle)).
  cbn [bind].
  change (lex Idle " & (~@touched)") with (@Ok (list token) guard_tokens).
  reflexivity.
Qed.

Lemma lex_guard_after_int (z : Z) :
  lex (InInt z) (") & (" ++ not_touched ++ ")") = Ok (TInt z :: TRParen :: guard_tokens).
Proof.
  cbn [append not_touched lex].
  change (step (InInt z) ")")
    with (@Ok (list token * lex_mode) ([TInt z; TRParen], Idle)).
  cbn [bind].
  change (lex Idle " & (~@touched)") with (@Ok (list token) guard_tokens).
  reflexivity.
Qed.

Lemma lex_guard_after_open_int (z : Z) :
  lex (InInt z) (" & (" ++ not_touched ++ ")") = Ok (TInt z :: guard_tokens).
Proof.
  cbn [append not_touched lex].
  change (step (InInt z) " ")
    with (@Ok (list token * lex_mode) ([TInt z], Idle)).
  cbn [bind].
  change (lex Idle "& (~@touched)") with (@Ok (list token) guard_tokens).
  reflexivity.
Qed.

(** ** The four texts of [_coeff] *)

Lemma tokens_of_quoted (name s : string) :
  is_identifier name = true ->
  all_chars (plain_char dquote_char) s = true ->
  tokenize (("(" ++ name ++ " == " ++ dquote ++ s ++ dquote ++ ")")
            ++ " & (" ++ not_touched ++ ")")
  = Ok (TLParen :: TName name :: TCmp OpEq :: TStr s :: TRParen :: guard_tokens).
Proof.
  intros Hname Hs. unfold tokenize.
  rewrite !append_assoc.
  change ("(" ++ name ++ " == " ++ dquote ++ s ++ dquote ++ ")" ++ " & (" ++ not_touched ++ ")")
    with (String "(" (name ++ " == " ++
            String dquote_char (s ++ String dquote_char (") & (" ++ not_touched ++ ")")))).
  rewrite (lex_open_name name _ Hname), lex_equals.
  cbn [lex].
  change (step Idle dquote_char)
    with (@Ok (list token * lex_mode) ([], InStr dquote_char "")).
  cbn [bind app]. rewrite (lex_string_run dquote_char s "" _ Hs).
  change ("" ++ s) with s. cbn [lex].
  change (step (InStr dquote_char s) dquote_char)
    with (@Ok (list token * lex_mode) ([TStr s], Idle)).
  cbn [bind]. rewrite lex_guard_after_paren. cbn [bind app].
  rewrite (identifier_token name Hname). reflexivity.
Qed.

Lemma tokens_of_digits (name s : string) :
  is_identifier name = true ->
  isnumeric s = true ->
  tokenize (("(" ++ name ++ " == " ++ s ++ ")") ++ " & (" ++ not_touched ++ ")")
  = Ok (TLParen :: TName name :: TCmp OpEq :: TInt (digits_value 0 s)
          :: TRParen :: guard_tokens).
Proof.
  intros Hname Hs. unfold tokenize.
  destruct s as [|c0 s']; [discriminate|].
  unfold isnumeric in Hs. cbn [all_chars] in Hs. apply andb_prop in Hs as [Hc0 Hs'].
  rewrite !append_assoc.
  change ("(" ++ name ++ " == " ++ String c0 s' ++ ")" ++ " & (" ++ not_touched ++ ")")
    with (String "(" (name ++ " == " ++
            String c0 (s' ++ ") & (" ++ not_touched ++ ")"))).
  rewrite (lex_open_name name _ Hname), lex_equals.
  cbn [lex]. unfold step. rewrite (start_of_digit c0 Hc0).
  cbn [bind app]. rewrite (lex_digit_run s' _ _ Hs'), lex_guard_after_int.
  cbn [bind app digits_value].
  rewrite (identifier_token name Hname).
  replace (10 * 0 + digit_value c0)%Z with (digit_value c0) by lia.
  reflexivity.
Qed.

Lemma tokens_of_bool (name : string) (b : bool) :
  is_identifier name = true ->
  tokenize (("(" ++ name ++ (if b then " == True)" else " == False)"))
            ++ " & (" ++ not_touched ++ ")")
  = Ok (TLParen :: TName name :: TCmp OpEq :: TBool b :: TRParen :: guard_tokens).
Proof.
  intros Hname. unfold tokenize.
  rewrite !append_assoc.
  replace ("(" ++ name ++ (if b then " == True)" else " == False)")
             ++ " & (" ++ not_touched ++ ")")
    with (String "(" (name ++ " == " ++ (if b then "True" else "False")
                        ++ ") & (" ++ not_touched ++ ")"))
    by (destruct b; reflexivity).
  rewrite (lex_open_name name _ Hname), lex_equals.
  rewrite (identifier_token name Hname).
  destruct b; vm_compute; reflexivity.
Qed.

Lemma tokens_of_number (name s : string) :
  is_identifier name = true ->
  isnumeric s = true ->
  tokenize (("(" ++ name ++ " == " ++ s) ++ " & (" ++ not_touched ++ ")")
  = Ok (TLParen :: TName name :: TCmp OpEq :: TInt (digits_value 0 s) :: guard_tokens).
Proof.
  intros Hname Hs. unfold tokenize.
  destruct s as [|c0 s']; [discriminate|].
  unfold isnumeric in Hs. cbn [all_chars] in Hs. apply andb_prop in Hs as [Hc0 Hs'].
  rewrite !append_assoc.
  change ("(" ++ name ++ " == " ++ String c0 s' ++ " & (" ++ not_touched ++ ")")
    with (String "(" (name ++ " == " ++
            String c0 (s' ++ " & (" ++ not_touched ++ ")"))).
  rewrite (lex_open_name name _ Hname), lex_equals.
  cbn [lex]. unfold step. rewrite (start_of_digit c0 Hc0).
  cbn [bind app]. rewrite (lex_digit_run s' _ _ Hs'), lex_guard_after_open_int.
  cbn [bind app digits_value].
  rewrite (identifier_token name Hname).
  replace (10 * 0 + digit_value c0)%Z with (digit_value c0) by lia.
  reflexivity.
Qed.

(** ** From the condition to the parsed expression *)

Lemma parse_equality_tokens (name : string) (l : cell) (t : token) :
  (t = TStr match l with CStr x => x | _ => "" end /\ (exists x, l = CStr x))
  \/ (exists z, l = CInt z /\ t = TInt z)
  \/ (exists b, l = CBool b /\ t = TBool b) ->
  parse (TLParen :: TName name :: TCmp OpEq :: t :: TRParen :: guard_tokens)
  = Ok (guarded_equality name l).
Proof.
  intros [[-> [x ->]] | [[z [-> ->]] | [b [-> ->]]]]; vm_compute; reflexivity.
Qed.

Lemma wrapped_text (stored : string) :
  condition_text (ArgStr (String "(" stored))
  = Ok (String "(" stored ++ " & (" ++ not_touched ++ ")").
Proof. reflexivity. Qed.

(** [when] with a literal on a predictor named by an identifier: what is
    stored, and what [predict] will parse. *)
Lemma when_literal (p : Predictor) (name : string) (c : condition_arg) (l : cell) (v : Q) :
  property_name p = Some name ->
  is_identifier name = true ->
  literal_cell c = Some l ->
  exists stored text,
    when p c v = Ok (append_condition p (ArgStr stored) v)
    /\ condition_text (ArgStr stored) = Ok text
    /\ parse_text text = Ok (guarded_equality name l).
Proof.
  intros Hname Hid Hl. unfold when, _coeff. rewrite Hname.
  destruct c as [s|b|n| |t]; cbn [literal_cell] in Hl; try discriminate Hl.
  - destruct s as [|c0 s']; [discriminate|].
    unfold parse_str_condition.
    destruct (starts_expression c0); [discriminate|].
    destruct (isnumeric (String c0 s')) eqn:Hnum.
    + destruct (no_leading_zero (String c0 s')); [|discriminate].
      injection Hl as <-. eexists. eexists. split; [reflexivity|].
      split; [apply wrapped_text|].
      unfold parse_text.
      change (String "(" (name ++ " == " ++ String c0 s' ++ ")"))
        with ("(" ++ name ++ " == " ++ String c0 s' ++ ")").
      rewrite (tokens_of_digits name (String c0 s') Hid Hnum). cbn [bind].
      apply parse_equality_tokens. right. left. eexists. split; reflexivity.
    + destruct (all_chars (plain_char dquote_char) (String c0 s')) eqn:Hplain;
        [|discriminate].
      injection Hl as <-. eexists. eexists. split; [reflexivity|].
      split; [apply wrapped_text|].
      unfold parse_text.
      change (String "(" (name ++ " == " ++ dquote ++ String c0 s' ++ dquote ++ ")"))
        with ("(" ++ name ++ " == " ++ dquote ++ String c0 s' ++ dquote ++ ")").
      rewrite (tokens_of_quoted name (String c0 s') Hid Hplain). cbn [bind].
      apply parse_equality_tokens. left. split; [reflexivity | eexists; reflexivity].
  - injection Hl as <-.
    exists ("(" ++ name ++ (if b then " == True)" else " == False)")).
    eexists. split; [destruct b; reflexivity|].
    split; [apply wrapped_text|].
    unfold parse_text.
    change (String "(" (name ++ (if b then " == True)" else " == False)")))
      with ("(" ++ name ++ (if b then " == True)" else " == False)")).
    rewrite (tokens_of_bool name b Hid). cbn [bind].
    apply parse_equality_tokens. right. right. eexists. split; reflexivity.
Qed.

(** X16.  Literal conditions survive the round trip through text.  On a
    predictor named by an identifier, [when] with a plain string, a string
    of digits or a boolean stores a text which, once [predict] has joined
    the test on [touched] to it, [eval] parses as [name == literal] and
    that test: a quoted string for a plain string, the number for a string
    of digits, the boolean for a boolean.  A plain string is made of
    printable characters other than the double quote and the backslash
    and does not open with an operator character; a string of digits has
    no zero in front; the name is not a reserved word. *)
Theorem literal_condition_round_trip
  (p : Predictor) (name : string) (c : condition_arg) (l : cell) (v : Q)
  (Hname : property_name p = Some name)
  (Hid : is_identifier name = true)
  (Hl : literal_cell c = Some l) :
  exists p' stored text,
    when p c v = Ok p'
    /\ conditions p' = (conditions p ++ [(stored, v)])%list
    /\ condition_text stored = Ok text
    /\ parse_text text = Ok (guarded_equality name l).
Proof.
  destruct (when_literal p name c l v Hname Hid Hl) as (stored & text & Hw & Ht & Hp).
  exists (append_condition p (ArgStr stored) v), (ArgStr stored), text.
  repeat split; assumption.
Qed.

Lemma literal_condition_round_trip_witness :
  exists p' stored text,
    when (Predictor_init 0 (Some "age")) (ArgStr "10") 2%Q = Ok p'
    /\ conditions p' = [(stored, 2%Q)]
    /\ condition_text stored = Ok text
    /\ parse_text text = Ok (guarded_equality "age" (CInt 10)).
Proof.
  apply (literal_condition_round_trip (Predictor_init 0 (Some "age")) "age"
           (ArgStr "10") (CInt 10) 2%Q); reflexivity.
Defined.

(** ** Numbers *)

Lemma uint_digits (d : Decimal.uint) :
  all_chars is_digit (NilEmpty.string_of_uint d) = true.
Proof. induction d; cbn [NilEmpty.string_of_uint all_chars]; try rewrite IHd; reflexivity. Qed.

Lemma str_of_Z_numeric (n : Z) : (0 <= n)%Z -> isnumeric (str_of_Z n) = true.
Proof.
  intros Hn. unfold str_of_Z. destruct n as [|q|q]; [reflexivity | | lia].
  cbn [Z.to_int NilZero.string_of_int]. unfold NilZero.string_of_uint.
  pose proof (uint_digits (Pos.to_uint q)) as Hd.
  destruct (Pos.to_uint q); try reflexivity; exact Hd.
Qed.

Lemma str_of_Z_negative (q : positive) :
  exists s, str_of_Z (Zneg q) = String "-" s.
Proof. eexists. reflexivity. Qed.

(** X17.  A number never gives a rule that can be evaluated.  For every
    integer [n], [when(n, v)] on a predictor named by an identifier is
    accepted and stores a text without its closing parenthesis, and
    [predict] then fails inside [eval] on every table; for [n >= 0] the
    failure is the end of the text reached inside the parenthesis. *)
Theorem numeric_literal_never_evaluates
  (oid : nat) (name : string) (n : Z) (v : Q) (df : DataFrame)
  (Hid : is_identifier name = true) :
  exists p e,
    when (Predictor_init oid (Some name)) (ArgNum n) v = Ok p
    /\ conditions p = [(ArgStr ("(" ++ name ++ " == " ++ str_of_Z n), v)]
    /\ Predictor_predict p df = Err (EvalError e)
    /\ ((0 <= n)%Z -> e = UnexpectedEOF).
Proof.
  eexists.
  assert (Hgoal : exists e,
            df_eval df (repeat false (nrows df))
              (("(" ++ name ++ " == " ++ str_of_Z n) ++ " & (" ++ not_touched ++ ")")
            = Err (EvalError e)
            /\ ((0 <= n)%Z -> e = UnexpectedEOF)).
  { unfold df_eval, parse_text.
    destruct (Z.leb_spec 0 n) as [Hn | Hn].
    - exists UnexpectedEOF. split; [|reflexivity].
      rewrite (tokens_of_number name (str_of_Z n) Hid (str_of_Z_numeric n Hn)).
      cbn [bind].
      replace (parse (TLParen :: TName name :: TCmp OpEq
                        :: TInt (digits_value 0 (str_of_Z n)) :: guard_tokens))
        with (@Err expr (EvalError UnexpectedEOF)) by (vm_compute; reflexivity).
      reflexivity.
    - destruct n as [|q|q]; try lia.
      destruct (str_of_Z_negative q) as [s ->].
      exists (UnknownCharacter "-"). split; [|lia].
      unfold tokenize. rewrite !append_assoc.
      change ("(" ++ name ++ " == " ++ String "-" s ++ " & (" ++ not_touched ++ ")")
        with (String "(" (name ++ " == " ++
                String "-" (s ++ " & (" ++ not_touched ++ ")"))).
      rewrite (lex_open_name name _ Hid), lex_equals. cbn [lex].
      change (step Idle "-")
        with (@Err (list token * lex_mode) (EvalError (UnknownCharacter "-"))).
      reflexivity. }
  destruct Hgoal as [e [Heval Hn]]. exists e.
  split; [reflexivity|]. split; [reflexivity|]. split; [|exact Hn].
  unfold Predictor_predict.
  cbn [append_condition Predictor_init conditions app predict_rules].
  change (condition_text (ArgStr ("(" ++ name ++ " == " ++ str_of_Z n)))
    with (@Ok string (("(" ++ name ++ " == " ++ str_of_Z n)
                      ++ " & (" ++ not_touched ++ ")")).
  cbn [bind]. rewrite Heval. reflexivity.
Qed.

Lemma numeric_literal_never_evaluates_witness :
  exists p e,
    when (Predictor_init 0 (Some "age")) (ArgNum 42) 1%Q = Ok p
    /\ conditions p = [(ArgStr ("(" ++ "age" ++ " == " ++ str_of_Z 42), 1%Q)]
    /\ Predictor_predict p ages_only = Err (EvalError e)
    /\ ((0 <= 42)%Z -> e = UnexpectedEOF).
Proof.
  apply (numeric_literal_never_evaluates 0 "age" 42 1%Q ages_only). reflexivity.
Defined.

End LiteralConditions.

(* ================================================================== *)
(** * Which rows a literal condition selects *)
(* ================================================================== *)

Module LiteralSemantics.

Import Text Pandas Lm Examples Usage Elementwise PredictInvariants LiteralConditions.
Open Scope string_scope.
Open Scope list_scope.

Lemma compare_equal_total (a l : cell) :
  compare_cells OpEq a l = Ok (CBool (cell_equals a l)).
Proof.
  unfold cell_equals.
  destruct a as [x|x|[]|]; destruct l as [y|y|[]|]; reflexivity.
Qed.

Lemma compare_column (l : cell) (cs : list cell) :
  map_result (fun a => compare_cells OpEq a l) cs
  = Ok (map CBool (map (fun a => cell_equals a l) cs)).
Proof.
  induction cs as [|a cs IH]; cbn [map map_result bind]; [reflexivity|].
  rewrite compare_equal_total, IH. reflexivity.
Qed.

Lemma and_columns (xs ys : list bool) :
  length xs = length ys ->
  zip_result (bool_cells andb) (map CBool xs) (map CBool ys)
  = Ok (map CBool (zip_with andb xs ys)).
Proof.
  revert ys; induction xs as [|x xs IH]; intros [|y ys] Hlen; try discriminate Hlen;
    cbn [map zip_result bool_cells bind zip_with]; [reflexivity|].
  rewrite IH by (injection Hlen as Hlen; exact Hlen). reflexivity.
Qed.

Lemma literal_scalar (df : DataFrame) (touched : list bool) (c : condition_arg) (l : cell) :
  literal_cell c = Some l ->
  eval_expr df touched (literal_expr l) = Ok (Scalar l).
Proof.
  intros Hl. destruct l; try reflexivity.
  destruct c as [s|b|n| |t]; cbn [literal_cell] in Hl; try discriminate Hl.
  destruct s as [|c0 s']; [discriminate|].
  destruct (starts_expression c0); [discriminate|].
  destruct (isnumeric (String c0 s')).
  - destruct (no_leading_zero (String c0 s')); discriminate.
  - destruct (all_chars (plain_char dquote_char) (String c0 s')); discriminate.
Qed.

Lemma column_length (df : DataFrame) (name : string) (cs : list cell) :
  column df name = Some cs -> length cs = nrows df.
Proof.
  unfold column. destruct (index_of name (columns df)); cbn [option_map]; [|discriminate].
  intros [= <-]. unfold column_values. apply length_map.
Qed.

(** The mask of [name == literal] with the test on [touched]. *)
Lemma eval_guarded_equality
  (df : DataFrame) (touched : list bool) (name : string)
  (c : condition_arg) (l : cell) (cs : list cell) :
  literal_cell c = Some l ->
  column df name = Some cs ->
  length touched = nrows df ->
  (v <- eval_expr df touched (guarded_equality name l) ;; as_mask (nrows df) v)
  = Ok (zip_with andb (map (fun a => cell_equals a l) cs) (map negb touched)).
Proof.
  intros Hl Hcol Ht. pose proof (column_length df name cs Hcol) as Hcs.
  unfold guarded_equality.
  change (eval_expr df touched
            (EAnd (ECmp OpEq (EName name) (literal_expr l)) (EInvert (ELocal "touched"))))
    with (v1 <- (u1 <- eval_expr df touched (EName name) ;;
                 u2 <- eval_expr df touched (literal_expr l) ;;
                 broadcast (compare_cells OpEq) u1 u2) ;;
          v2 <- eval_expr df touched (EInvert (ELocal "touched")) ;;
          broadcast_bool andb v1 v2).
  rewrite (literal_scalar df touched c l Hl).
  cbn [eval_expr]. rewrite Hcol. cbn [bind broadcast].
  rewrite compare_column. cbn [bind].
  unfold resolve_local. replace (String.eqb "touched" "touched") with true by reflexivity.
  cbn [bind]. rewrite ShortCircuit.invert_touched. cbn [bind broadcast_bool broadcast].
  rewrite and_columns by (rewrite !length_map; congruence).
  cbn [bind as_mask].
  rewrite length_map, zip_with_length by (rewrite !length_map; congruence).
  rewrite length_map, Hcs, Nat.eqb_refl.
  apply mask_of_bool_cells.
Qed.

Lemma and_all_true (xs : list bool) (n : nat) :
  length xs = n -> zip_with andb xs (map negb (repeat false n)) = xs.
Proof.
  revert n; induction xs as [|x xs IH]; intros [|n] Hlen; try discriminate Hlen;
    cbn [repeat map zip_with negb]; [reflexivity|].
  rewrite andb_true_r, IH by (injection Hlen as Hlen; exact Hlen). reflexivity.
Qed.

Lemma assign_from_nothing (xs : list bool) (n : nat) (v : Q) :
  length xs = n ->
  assign (repeat None n) xs v = map (fun b : bool => if b then Some v else None) xs.
Proof.
  revert n; induction xs as [|x xs IH]; intros [|n] Hlen; try discriminate Hlen;
    cbn [repeat map assign zip_with]; [reflexivity|].
  f_equal. apply IH. injection Hlen as Hlen. exact Hlen.
Qed.

Lemma touch_from_nothing (xs : list bool) (n : nat) :
  length xs = n -> touch (repeat false n) xs = xs.
Proof.
  revert n; induction xs as [|x xs IH]; intros [|n] Hlen; try discriminate Hlen;
    cbn [repeat touch zip_with orb]; [reflexivity|].
  f_equal. apply IH. injection Hlen as Hlen. exact Hlen.
Qed.

Lemma assign_the_rest (xs : list bool) (v w : Q) :
  assign (map (fun b : bool => if b then Some v else None) xs) (map negb xs) w
  = map (fun b : bool => Some (if b then v else w)) xs.
Proof.
  induction xs as [|x xs IH]; cbn [map assign zip_with]; [reflexivity|].
  unfold assign in IH. rewrite IH. destruct x; reflexivity.
Qed.



End LiteralSemantics.

(* ================================================================== *)
(** * Predictors written with literals only *)
(* ================================================================== *)

Module LiteralChains.

Import Text Pandas Lm Examples Usage Elementwise PredictInvariants LiteralConditions
       LiteralSemantics.
Open Scope string_scope.
Open Scope list_scope.

Lemma apply_literal_call (p p' : Predictor) (name : string) (k : call) :
  property_name p = Some name ->
  is_identifier name = true ->
  literal_call k = true ->
  apply_call p k = Ok p' ->
  property_name p' = Some name
  /\ exists rule, conditions p' = conditions p ++ [rule] /\ stores name k rule.
Proof.
  intros Hname Hid Hk Hrun. destruct k as [c v|w]; cbn [apply_call literal_call] in *.
  - destruct (literal_cell c) as [l|] eqn:Hl; [|discriminate].
    destruct (when_literal p name c l v Hname Hid Hl) as (stored & text & Hw & Ht & Hp).
    rewrite Hw in Hrun. injection Hrun as <-.
    split; [exact Hname|]. exists (ArgStr stored, v). split; [reflexivity|].
    split; [reflexivity|]. exists text. cbn [call_test fst]. rewrite Hl.
    split; assumption.
  - unfold otherwise, _coeff in Hrun. rewrite Hname in Hrun.
    destruct (else_condition_supplied p); [discriminate|]. injection Hrun as <-.
    split; [exact Hname|]. exists (ArgStr "", w). split; [reflexivity|].
    split; [reflexivity|]. exists not_touched. split; [reflexivity|].
    vm_compute. reflexivity.
Qed.

Lemma apply_literal_calls (name : string) (ks : list call) :
  is_identifier name = true ->
  forallb literal_call ks = true ->
  forall p p' : Predictor,
    property_name p = Some name ->
    apply_calls p ks = Ok p' ->
    exists rules, conditions p' = conditions p ++ rules /\ Forall2 (stores name) ks rules.
Proof.
  intros Hid. induction ks as [|k ks IH]; intros Hks p p' Hname Hrun;
    cbn [apply_calls] in Hrun.
  - injection Hrun as <-. exists []. split; [rewrite app_nil_r; reflexivity | constructor].
  - cbn [forallb] in Hks. apply andb_prop in Hks as [Hk Hks].
    destruct (apply_call p k) as [p1|e] eqn:Hcall; cbn [bind] in Hrun; [|discriminate].
    destruct (apply_literal_call p p1 name k Hname Hid Hk Hcall)
      as (Hname1 & rule & Hrule & Hstores).
    destruct (IH Hks p1 p' Hname1 Hrun) as (rules & Hrules & Hall).
    exists (rule :: rules). split; [|constructor; assumption].
    rewrite Hrules, Hrule, <- app_assoc. reflexivity.
Qed.

Lemma stores_guarded (name : string) (k : call) (rule : condition_arg * Q) :
  stores name k rule -> guarded_rule rule = true.
Proof.
  intros (_ & text & Htext & Hparse).
  unfold guarded_rule. rewrite Htext, Hparse.
  destruct (call_test k) as [[s|z|b|]|]; reflexivity.
Qed.

Lemma stores_row_local
  (cols : list string) (name : string) (k : call) (rule : condition_arg * Q) :
  names_column cols name = true ->
  literal_call k = true ->
  stores name k rule -> row_local_rule cols rule = true.
Proof.
  intros Hname Hk (_ & text & Htext & Hparse).
  unfold row_local_rule, row_local_text. rewrite Htext, Hparse.
  destruct k as [c v|w]; cbn [call_test literal_call] in *; [|reflexivity].
  destruct (literal_cell c) as [l|] eqn:Hl; [|discriminate].
  unfold guarded_equality. cbn [aggregate_free over_columns andb]. rewrite Hname.
  destruct l as [s|z|b|]; try reflexivity.
  destruct c as [s|b|n| |t]; cbn [literal_cell] in Hl; try discriminate Hl.
  destruct s as [|c0 s']; [discriminate|].
  destruct (starts_expression c0); [discriminate|].
  destruct (isnumeric (String c0 s')).
  - destruct (no_leading_zero (String c0 s')); discriminate.
  - destruct (all_chars (plain_char dquote_char) (String c0 s')); discriminate.
Qed.

(** X19.  A predictor named by an identifier and written with literal
    conditions and [otherwise] only holds one rule per call, in the order
    of the calls and with the coefficient of the call, and the text that
    [predict] forms for the rule is read by [eval] as the equality of the
    column with the literal of the call joined to the test on [touched],
    or as that test alone for [otherwise].  So every rule is guarded, and
    the predictor is row-local on every table in which the name names a
    column. *)
Theorem literal_chain_is_guarded_and_row_local
  (oid : nat) (name : string) (ks : list call) (p : Predictor)
  (Hid : is_identifier name = true)
  (Hks : forallb literal_call ks = true)
  (Hrun : apply_calls (Predictor_init oid (Some name)) ks = Ok p) :
  Forall2 (stores name) ks (conditions p)
  /\ forallb guarded_rule (conditions p) = true
  /\ (forall cols, names_column cols name = true -> row_local cols p = true).
Proof.
  destruct (apply_literal_calls name ks Hid Hks (Predictor_init oid (Some name)) p
              eq_refl Hrun) as (rules & Hrules & Hall).
  cbn [Predictor_init conditions app] in Hrules. unfold row_local. rewrite Hrules.
  split; [exact Hall|]. clear Hrules Hrun. split.
  - clear Hks. induction Hall as [|k rule ks rules Hk _ IH]; cbn [forallb];
      [reflexivity|].
    rewrite (stores_guarded name k rule Hk). exact IH.
  - intros cols Hname. revert Hks.
    induction Hall as [|k rule ks rules Hk _ IH]; cbn [forallb]; intros Hks;
      [reflexivity|].
    apply andb_prop in Hks as [Hlit Hks].
    rewrite (stores_row_local cols name k rule Hname Hlit Hk). apply IH. exact Hks.
Qed.

Lemma literal_chain_is_guarded_and_row_local_witness :
  Forall2 (stores "sex") [CallWhen (ArgStr "M") (3 # 2); CallOtherwise 1]
          (conditions sex_m_else_1)
  /\ forallb guarded_rule (conditions sex_m_else_1) = true
  /\ (forall cols, names_column cols "sex" = true -> row_local cols sex_m_else_1 = true).
Proof.
  apply (literal_chain_is_guarded_and_row_local 0 "sex"
           [CallWhen (ArgStr "M") (3 # 2); CallOtherwise 1]); reflexivity.
Defined.

(** ** The column, row by row *)

Lemma row_run_first_match (ks : list call) (a : cell) :
  forall (o : option Q) (t : bool),
    row_run ks a o t
    = if t then (o, true)
      else match first_match ks a with
           | Some v => (Some v, true)
           | None => (o, false)
           end.
Proof.
  unfold first_match.
  induction ks as [|k ks IH]; intros o t; cbn [row_run find option_map].
  - destruct t; reflexivity.
  - rewrite IH. destruct t; cbn [negb andb orb].
    + rewrite andb_false_r. reflexivity.
    + rewrite andb_true_r. destruct (call_matches a k); cbn [option_map]; reflexivity.
Qed.

(** The loop over the rules of a literal chain, seen from one row. *)
Lemma run_rules_by_row
  (df : DataFrame) (name : string) (cs : list cell)
  (ks : list call) (rules : list (condition_arg * Q)) :
  column df name = Some cs ->
  forallb literal_call ks = true ->
  Forall2 (stores name) ks rules ->
  forall (output : series) (touched : list bool),
    length output = nrows df -> length touched = nrows df ->
    exists output' touched',
      run_rules df rules output touched = Ok (output', touched')
      /\ length output' = nrows df /\ length touched' = nrows df
      /\ forall i, (i < nrows df)%nat ->
           (nth i output' None, nth i touched' false)
           = row_run ks (nth i cs CNaN) (nth i output None) (nth i touched false).
Proof.
  intros Hcol Hks Hall. pose proof (column_length df name cs Hcol) as Hcs.
  revert Hks. induction Hall as [|k rule ks rules Hk _ IH];
    intros Hks output touched Ho Ht; cbn [run_rules row_run].
  - exists output, touched. repeat split; assumption.
  - cbn [forallb] in Hks. apply andb_prop in Hks as [Hlit Hks].
    destruct rule as [c v]. destruct Hk as (Hv & text & Htext & Hparse).
    cbn [fst snd] in *. subst v. rewrite Htext. cbn [bind].
    assert (Hmask : df_eval df touched text
                    = Ok (zip_with andb (map (fun a => call_matches a k) cs)
                                   (map negb touched))).
    { unfold df_eval. rewrite Hparse. cbn [bind].
      unfold call_matches. destruct k as [c' v'|w]; cbn [call_test literal_call] in *.
      - destruct (literal_cell c') as [l|] eqn:Hl; [|discriminate].
        apply (eval_guarded_equality df touched name c' l cs Hl Hcol Ht).
      - fold (df_eval df touched not_touched) in *.
        change (v0 <- eval_expr df touched (EInvert (ELocal "touched")) ;;
                as_mask (nrows df) v0)
          with (e <- Ok (EInvert (ELocal "touched")) ;;
                v0 <- eval_expr df touched e ;; as_mask (nrows df) v0).
        replace (@Ok expr (EInvert (ELocal "touched"))) with (parse_text not_touched)
          by (vm_compute; reflexivity).
        fold (df_eval df touched not_touched).
        rewrite (df_eval_not_touched df touched Ht).
        f_equal. clear - Hcs Ht. assert (Hlen : length cs = length touched) by congruence.
        clear Hcs Ht. revert touched Hlen.
        induction cs as [|a cs IHcs]; intros [|t touched] Hlen; try discriminate Hlen;
          cbn [map zip_with andb]; [reflexivity|].
        f_equal. apply IHcs. injection Hlen as Hlen. exact Hlen. }
    rewrite Hmask. cbn [bind].
    set (mask := zip_with andb (map (fun a => call_matches a k) cs) (map negb touched)).
    assert (Hlen : length mask = nrows df).
    { unfold mask. rewrite zip_with_length; rewrite !length_map; congruence. }
    destruct (IH Hks (assign output mask (call_value k)) (touch touched mask))
      as (output' & touched' & Hrun & Ho' & Ht' & Hrows).
    { unfold assign. rewrite zip_with_length; congruence. }
    { unfold touch. rewrite zip_with_length; congruence. }
    exists output', touched'. split; [exact Hrun|]. split; [exact Ho'|].
    split; [exact Ht'|]. intros i Hi. rewrite (Hrows i Hi).
    unfold assign, touch.
    rewrite (nth_zip_with (fun o (m : bool) => if m then Some (call_value k) else o)
               None false) by congruence.
    rewrite (nth_zip_with orb false false) by congruence.
    assert (Hmi : nth i mask false
                  = call_matches (nth i cs CNaN) k && negb (nth i touched false)).
    { unfold mask.
      rewrite (nth_indep _ false (andb (call_matches CNaN k) (negb false)))
        by (rewrite zip_with_length; rewrite !length_map; congruence).
      rewrite (nth_zip_with andb (call_matches CNaN k) (negb false))
        by (rewrite !length_map; congruence).
      rewrite (map_nth (fun a => call_matches a k)), (map_nth negb). reflexivity. }
    rewrite Hmi. reflexivity.
Qed.



End LiteralChains.
